(** * effect-faker: the mock-data generation engine

    A shallow embedding of [MockGenerator] (the AST-driven generation engine),
    of the seeding code it shares with [EffectFaker.seed], and of the option
    types of [types.ts], followed by the properties of the specification that
    were checked against it.

    Conventions of the embedding.
    - JavaScript strings are sequences of code units; the code units used
      here are below 256, so a string is a Rocq [string] and [charCodeAt] is
      the code of an [ascii].
    - The instance fields [currentFaker] and [currentSeed], the provider
      instances they may alias, and the ambient [Math.random] generator form
      an explicit [World]; every method is a function from a world to an
      [Outcome]: a returned value or a thrown error, with the world left
      behind.
    - faker-js and the JavaScript built-ins ([JSON.parse], [String], [Number],
      [new Date]) are not part of the repository: they are the interfaces
      [Provider] and [Runtime].
    - An object used as a table (the override configuration, [allLocales])
      is read as JavaScript reads [table[key]]: its own entry under the key
      when it has one, else what it inherits under that name.  A property
      read on the provider may itself raise.  A count is a natural number.
    - [Math.random] returns a multiple of 2^-53 in [[0, 1)]; its product
      with an array length is rounded as binary64 multiplication rounds. *)

From Stdlib Require Import ZArith QArith Lia Ascii.
From stdpp Require Import base option list strings pretty gmap.

Set Warnings "-register-all".
Local Open Scope Z_scope.

(** ** State-and-exception monad *)

Inductive JsError : Type :=
| Error (message : string)
| TypeError (message : string)
| SyntaxError (message : string)
| FakerError (message : string).

(** [e.message]. *)
Definition error_message (e : JsError) : string :=
  match e with
  | Error m | TypeError m | SyntaxError m | FakerError m => m
  end.

Inductive Outcome (S A : Type) : Type :=
| Ret (a : A) (w : S)
| Throw (e : JsError) (w : S).
Arguments Ret {S A} a w.
Arguments Throw {S A} e w.

Definition M (S A : Type) : Type := S -> Outcome S A.

Definition ret {S A} (a : A) : M S A := fun w => Ret a w.

Definition throw {S A} (e : JsError) : M S A := fun w => Throw e w.

Definition bind {S A B} (m : M S A) (k : A -> M S B) : M S B :=
  fun w => match m w with
           | Ret a w' => k a w'
           | Throw e w' => Throw e w'
           end.

(** [try { m } catch { h }]: the handler ignores the error value. *)
Definition try_catch {S A} (m : M S A) (h : M S A) : M S A :=
  fun w => match m w with
           | Ret a w' => Ret a w'
           | Throw _ w' => h w'
           end.

Notation "x <- c ;; k" := (bind c (fun x => k))
  (at level 90, c at next level, right associativity).

Definition returned {S A} (o : Outcome S A) : option A :=
  match o with Ret a _ => Some a | Throw _ _ => None end.

Definition thrown {S A} (o : Outcome S A) : option JsError :=
  match o with Ret _ _ => None | Throw e _ => Some e end.

Definition final {S A} (o : Outcome S A) : S :=
  match o with Ret _ w => w | Throw _ w => w end.

(** ** JavaScript values *)

Inductive JsNumber : Type :=
| NaN
| Num (q : Q).

Inductive Value : Type :=
| VUndefined
| VNull
| VBool (b : bool)
| VNumber (n : JsNumber)
| VString (s : string)
| VDate (time : JsNumber)
| VArray (items : list Value)
| VObject (props : list (string * Value)).

Definition VInt (z : Z) : Value := VNumber (Num (inject_Z z)).

(** [Boolean(v)]: the falsy values are [undefined], [null], [false], [0],
    [NaN] and the empty string. *)
Definition ToBoolean (v : Value) : bool :=
  match v with
  | VUndefined | VNull => false
  | VBool b => b
  | VNumber NaN => false
  | VNumber (Num q) => negb (Qnum q =? 0)
  | VString s => negb (String.eqb s "")
  | VDate _ | VArray _ | VObject _ => true
  end.

(** [result[key] = v] on an object literal under construction. *)
Fixpoint obj_set (props : list (string * Value)) (key : string) (v : Value)
  : list (string * Value) :=
  match props with
  | [] => [(key, v)]
  | (k, x) :: rest =>
      if String.eqb k key then (k, v) :: rest else (k, x) :: obj_set rest key v
  end.

(** [table[key]] on an object literal used as a table. *)
Fixpoint assoc {A} (key : string) (table : list (string * A)) : option A :=
  match table with
  | [] => None
  | (k, x) :: rest => if String.eqb k key then Some x else assoc key rest
  end.

(** ** String primitives *)

(** [s.split('.')]: never empty; an empty string gives one empty segment. *)
Fixpoint split_dot (s : string) : list string :=
  match s with
  | EmptyString => [EmptyString]
  | String c rest =>
      if Ascii.eqb c "."%char then EmptyString :: split_dot rest
      else match split_dot rest with
           | seg :: segs => String c seg :: segs
           | [] => [String c EmptyString]
           end
  end.

(** [parts.join(sep)]. *)
Fixpoint join (sep : string) (parts : list string) : string :=
  match parts with
  | [] => EmptyString
  | [p] => p
  | p :: rest => p +:+ sep +:+ join sep rest
  end.

Definition lower_char (c : ascii) : ascii :=
  let n := Ascii.N_of_ascii c in
  if ((65 <=? n) && (n <=? 90))%N
     || ((192 <=? n) && (n <=? 222) && negb (n =? 215))%N
  then Ascii.ascii_of_N (n + 32) else c.

(** [s.toLowerCase()] on code units below 256. *)
Fixpoint toLowerCase (s : string) : string :=
  match s with
  | EmptyString => EmptyString
  | String c rest => String (lower_char c) (toLowerCase rest)
  end.

Fixpoint startsWith (s p : string) : bool :=
  match p, s with
  | EmptyString, _ => true
  | String _ _, EmptyString => false
  | String a p', String b s' => Ascii.eqb a b && startsWith s' p'
  end.

(** [s.includes(p)]. *)
Fixpoint includes (s p : string) : bool :=
  startsWith s p ||
  match s with
  | EmptyString => false
  | String _ rest => includes rest p
  end.

(** [s.charCodeAt(i)] for every [i], in order. *)
Fixpoint char_codes (s : string) : list Z :=
  match s with
  | EmptyString => []
  | String c rest => Z.of_N (Ascii.N_of_ascii c) :: char_codes rest
  end.

(** ** 32-bit integer operations *)

(** [ToInt32]: reduction modulo 2^32 into [-2^31, 2^31). *)
Definition ToInt32 (z : Z) : Z := (z + 2 ^ 31) mod 2 ^ 32 - 2 ^ 31.

(** [a << k]. *)
Definition shl32 (a k : Z) : Z := ToInt32 (Z.shiftl (ToInt32 a) k).

(** [a & b]. *)
Definition and32 (a b : Z) : Z := Z.land (ToInt32 a) (ToInt32 b).

(** ** String seeds *)

Inductive Seed : Type :=
| SeedString (s : string)
| SeedNumber (n : Z).

(** One turn of the loop of [setupSeed]:
    [hash = (hash << 5) - hash + char; hash = hash & hash]. *)
Definition hash_step (hash char : Z) : Z :=
  let hash := shl32 hash 5 - hash + char in
  and32 hash hash.

Definition hash_codes (codes : list Z) : Z := fold_left hash_step codes 0.

(** The value [setupSeed] and [EffectFaker.seed] compute into [seedValue]. *)
Definition seedValue (seed : Seed) : Z :=
  match seed with
  | SeedString s => Z.abs (hash_codes (char_codes s))
  | SeedNumber n => n
  end.

(** [if (options?.seed)]: the number 0 and the empty string are falsy. *)
Definition seed_truthy (seed : Seed) : bool :=
  match seed with
  | SeedString s => negb (String.eqb s "")
  | SeedNumber n => negb (n =? 0)
  end.

(** The rolling hash in the words of the specification: fold
    [acc = acc * 31 + charCode] with wrap-around to the signed 32-bit range,
    then the absolute value. *)
Definition rolling_hash_spec (codes : list Z) : Z :=
  Z.abs (fold_left (fun acc code => ToInt32 (acc * 31 + code)) codes 0).

(** ** The method-spec pattern [/^([a-zA-Z.]+)(?:\((.+)\))?$/] *)

Definition is_path_char (c : ascii) : bool :=
  let n := Ascii.N_of_ascii c in
  ((65 <=? n) && (n <=? 90) || (97 <=? n) && (n <=? 122) || (n =? 46))%N.

(** [.] of a regular expression matches every code unit but a line
    terminator. *)
Definition is_line_terminator (c : ascii) : bool :=
  let n := Ascii.N_of_ascii c in ((n =? 10) || (n =? 13))%N.

Fixpoint all_chars (p : ascii -> bool) (s : string) : bool :=
  match s with
  | EmptyString => true
  | String c rest => p c && all_chars p rest
  end.

(** The longest prefix of [[a-zA-Z.]] characters, and what follows it. *)
Fixpoint span_path (s : string) : string * string :=
  match s with
  | EmptyString => (EmptyString, EmptyString)
  | String c rest =>
      if is_path_char c
      then let '(p, r) := span_path rest in (String c p, r)
      else (EmptyString, s)
  end.

(** [s] without its last character, when that character is [)]. *)
Fixpoint strip_close (s : string) : option string :=
  match s with
  | EmptyString => None
  | String c EmptyString => if Ascii.eqb c ")"%char then Some EmptyString else None
  | String c rest => option_map (String c) (strip_close rest)
  end.

(** [fakerPath.match(...)]: the two capture groups; the second is absent
    when the parenthesised part did not take part in the match. *)
Definition match_faker_path (fakerPath : string) : option (string * option string) :=
  let '(path, rest) := span_path fakerPath in
  if String.eqb path "" then None
  else match rest with
       | EmptyString => Some (path, None)
       | String c body =>
           if Ascii.eqb c "("%char then
             match strip_close body with
             | Some argsStr =>
                 if negb (String.eqb argsStr "")
                    && all_chars (fun c => negb (is_line_terminator c)) argsStr
                 then Some (path, Some argsStr)
                 else None
             | None => None
             end
           else None
       end.

(** A remainder at which the run of path characters must stop. *)
Definition stops_path (r : string) : Prop :=
  match r with
  | EmptyString => True
  | String c _ => is_path_char c = false
  end.

(** The shape the pattern describes, in the words of section 4.3a: one or
    more dot-joined identifier segments, that is a non-empty run of letters
    and dots, optionally followed by a parenthesised, non-empty argument
    blob that runs to the end of the string (and holds no line terminator,
    which [.] does not match). *)
Definition method_shape (fakerPath path : string) (blob : option string) : Prop :=
  path <> EmptyString
  /\ all_chars is_path_char path = true
  /\ match blob with
     | None => fakerPath = path
     | Some argsStr =>
         argsStr <> EmptyString
         /\ all_chars (fun c => negb (is_line_terminator c)) argsStr = true
         /\ fakerPath = path +:+ "(" +:+ argsStr +:+ ")"
     end.

(** ** External interfaces *)

Inductive CallResult (R : Type) : Type :=
| Returns (v : Value) (r : R)
| Raises (e : JsError) (r : R).
Arguments Returns {R} v r.
Arguments Raises {R} e r.

(** What a property read [o[part]] comes to: a truthy value, a falsy one
    ([undefined] where there is no such property), or an exception raised by
    the read itself (a getter or a proxy that throws). *)
Inductive Read (A : Type) : Type :=
| Truthy (a : A)
| Falsy
| ReadRaises (e : JsError).
Arguments Truthy {A} a.
Arguments Falsy {A}.
Arguments ReadRaises {A} e.

(** What an ordinary object inherits under a name, as the engine meets it
    when it reads a configuration: a function, with what the call
    [fieldConfig()] of it (no [this], no argument) does, or an object without
    a truthy [faker] property. *)
Inductive Inherited : Type :=
| InheritedFunction (result : Value + JsError)
| InheritedObject.

(** faker-js.  A provider instance is a locale definition and a randomizer
    state; [new Faker] takes its first randomizer state from ambient entropy
    and [seed] replaces it by a function of the seed array.  The members of
    an instance form an object graph read by property name, a read being
    answered from the instance's locale data; a callable member is invoked
    on the instance's locale and randomizer and returns or raises.
    [allLocales] are the own entries of the table of that name, in the order
    of [Object.keys]; [allLocales_inherited] is what a read of the table
    finds under a name it has no own entry for, when that is truthy. *)
Class Provider : Type := {
  LocaleDefinition : Type;
  Randomizer : Type;
  Member : Type;
  allLocales : list (string * LocaleDefinition);
  allLocales_inherited : string -> option LocaleDefinition;
  fresh_randomizer : Z -> Randomizer;
  seeded_randomizer : list Z -> Randomizer;
  faker_object : Member;
  member_prop : LocaleDefinition -> Member -> string -> Read Member;
  member_callable : Member -> bool;
  member_call : Member -> list Value -> LocaleDefinition -> Randomizer
                -> CallResult Randomizer
}.

(** JavaScript built-ins. [JSON_parse] is [None] where [JSON.parse] throws;
    [Object_prototype] is what an ordinary object, as a configuration
    written as an object literal is one and as the [{}] the facade puts in
    the place of a missing one, inherits under a name ([constructor],
    [toString], [valueOf] and the like). *)
Class Runtime : Type := {
  JSON_parse : string -> option Value;
  ToString : Value -> string;
  ToNumber : Value -> JsNumber;
  ToDate : Value -> Value;
  Object_prototype : string -> option Inherited
}.

(** ** Schema trees ([effect/SchemaAST]) *)

(** The node kinds the engine tells apart; every other kind is [OtherNode].
    A [Declaration] carries the name its schema declares (its [identifier]
    annotation, such as [DateFromSelf]) next to its type parameters.  The
    [types] of a [Union] are two or more in [effect/SchemaAST]. *)
Inductive AST : Type :=
| StringKeyword
| NumberKeyword
| BooleanKeyword
| TypeLiteral (propertySignatures : list (string * AST))
| Union (types : list AST)
| TupleType (elements : list AST)
| Refinement (from : AST)
| Transformation (from : AST)
| Declaration (identifier : string) (typeParameters : list AST)
| Literal (literal : Value)
| OtherNode (tag : string).

(** [ast._tag]. *)
Definition _tag (ast : AST) : string :=
  match ast with
  | StringKeyword => "StringKeyword"
  | NumberKeyword => "NumberKeyword"
  | BooleanKeyword => "BooleanKeyword"
  | TypeLiteral _ => "TypeLiteral"
  | Union _ => "Union"
  | TupleType _ => "TupleType"
  | Refinement _ => "Refinement"
  | Transformation _ => "Transformation"
  | Declaration _ _ => "Declaration"
  | Literal _ => "Literal"
  | OtherNode tag => tag
  end.

(** [path.split('.').pop() || path]. *)
Definition getFieldName (path : string) : string :=
  match last (split_dot path) with
  | Some name => if String.eqb name "" then path else name
  | None => path
  end.

(** The last segment of a dotted path. *)
Definition last_segment (path : string) : string :=
  default EmptyString (last (split_dot path)).

(** [basePath ? `${basePath}.${fieldName}` : fieldName]. *)
Definition fieldPath (basePath fieldName : string) : string :=
  if String.eqb basePath "" then fieldName
  else basePath +:+ "." +:+ fieldName.

(** [`${path}[${index}]`]. *)
Definition elementPath (path : string) (index : nat) : string :=
  path +:+ "[" +:+ pretty index +:+ "]".

(** The last character of a string, if it has one. *)
Fixpoint last_char (s : string) : option ascii :=
  match s with
  | EmptyString => None
  | String c EmptyString => Some c
  | String _ rest => last_char rest
  end.

(** The binary64 number nearest to [p / 2^53], again as a multiple of
    2^-53, for a natural [p]: a significand has 53 bits, so a [p] of [e]
    bits more is rounded to a multiple of [2^e], to the nearest one and on a
    tie to the even one. *)
Definition binary64_round (p : Z) : Z :=
  let e := Z.log2 p - 52 in
  if e <=? 0 then p
  else
    let q := p / 2 ^ e in
    let r := p mod 2 ^ e in
    let half := 2 ^ (e - 1) in
    if (r <? half) || ((r =? half) && Z.even q) then q * 2 ^ e
    else (q + 1) * 2 ^ e.

(** [Math.floor(Math.random() * length)] for the draw [u = k / 2^53] of
    [Math.random]: the product is a binary64 multiplication. *)
Definition random_index (k : Z) (length : nat) : nat :=
  Z.to_nat (binary64_round ((k mod 2 ^ 53) * Z.of_nat length) / 2 ^ 53).

(** The index the exact product [u * length] would give. *)
Definition exact_index (k : Z) (length : nat) : nat :=
  Z.to_nat ((k mod 2 ^ 53) * Z.of_nat length / 2 ^ 53).

Section Engine.
Context {P : Provider} {R : Runtime}.

Record FakerInstance : Type := mkFaker {
  definitions : LocaleDefinition;
  randomizer : Randomizer
}.

(** [heap] holds every provider instance: address 0 is the module-level
    [faker], the others are instances of the caller or made by
    [setupLocale].  [mathRandom] is the sequence of draws [Math.random]
    will return, [drawn] how many were taken.  [currentFaker] and
    [currentSeed] are the fields of the [MockGenerator]. *)
Record World : Type := mkWorld {
  heap : list FakerInstance;
  mathRandom : nat -> Z;
  drawn : nat;
  currentFaker : nat;
  currentSeed : option Z
}.

Definition Eff : Type -> Type := M World.

Record FieldMockConfig : Type := mkFieldMockConfig {
  faker : option string;
  value : option Value;
  transform : option (Value -> Eff Value);
  constraints : option (list (string * Value))
}.

(** [FieldMockConfig | string | (() => unknown) | undefined]: what an entry
    of the configuration holds.  An entry that holds [undefined] is a
    property of the configuration all the same; no entry is the absence of
    the key. *)
Inductive Override : Type :=
| OvFunction (fn : Eff Value)
| OvString (spec : string)
| OvConfig (fieldConfig : FieldMockConfig)
| OvUndefined.

Inductive LocaleOption : Type :=
| LocaleCode (code : string)
| LocaleObject (definition : LocaleDefinition)
| LocaleFaker (instance : nat).

Record MockOptions : Type := mkOptions {
  count : option nat;
  seed : option Seed;
  locale : option LocaleOption
}.

Definition set_heap (w : World) (h : list FakerInstance) : World :=
  mkWorld h (mathRandom w) (drawn w) (currentFaker w) (currentSeed w).

Definition set_currentFaker (w : World) (a : nat) : World :=
  mkWorld (heap w) (mathRandom w) (drawn w) a (currentSeed w).

Definition set_currentSeed (w : World) (s : option Z) : World :=
  mkWorld (heap w) (mathRandom w) (drawn w) (currentFaker w) s.

(** [Math.random()]: the next draw. *)
Definition Math_random : Eff Z := fun w =>
  Ret (mathRandom w (drawn w))
      (mkWorld (heap w) (mathRandom w) (S (drawn w)) (currentFaker w) (currentSeed w)).

(** [new Faker({ locale })]: the address of the new instance. *)
Definition new_Faker (d : LocaleDefinition) : Eff nat :=
  k <- Math_random ;;
  fun w => Ret (length (heap w))
               (set_heap w (heap w ++ [mkFaker d (fresh_randomizer k)])).

Definition undefined_read : JsError :=
  TypeError "Cannot read properties of undefined".

(** [instance.seed([seedValue])] on the instance at an address. *)
Definition instance_seed (a : nat) (seedValue : Z) : Eff unit := fun w =>
  match heap w !! a with
  | Some f =>
      Ret tt (set_heap w (<[a := mkFaker (definitions f)
                                    (seeded_randomizer [seedValue])]> (heap w)))
  | None => Throw undefined_read w
  end.

(** [this.currentFaker.seed([seedValue])]. *)
Definition faker_seed (seedValue : Z) : Eff unit := fun w =>
  instance_seed (currentFaker w) seedValue w.

(** A call of a member of [this.currentFaker]. *)
Definition call_member (fn : Member) (args : list Value) : Eff Value := fun w =>
  match heap w !! currentFaker w with
  | Some f =>
      match member_call fn args (definitions f) (randomizer f) with
      | Returns v r =>
          Ret v (set_heap w (<[currentFaker w := mkFaker (definitions f) r]> (heap w)))
      | Raises e r =>
          Throw e (set_heap w (<[currentFaker w := mkFaker (definitions f) r]> (heap w)))
      end
  | None => Throw undefined_read w
  end.

(** [fakerFn = fakerFn[part]; if (!fakerFn) return ...] over the parts, on
    an instance with the locale data [d]: the member reached, or a falsy
    read, or the exception of a read that raised. *)
Fixpoint walk (d : LocaleDefinition) (fakerFn : Member) (pathParts : list string)
  : Read Member :=
  match pathParts with
  | [] => Truthy fakerFn
  | part :: rest =>
      match member_prop d fakerFn part with
      | Truthy next => walk d next rest
      | Falsy => Falsy
      | ReadRaises e => ReadRaises e
      end
  end.

(** The reads of a path from [this.currentFaker] on: the member reached,
    [None] after a falsy read; an exception of a read is thrown on. *)
Definition read_path (pathParts : list string) : Eff (option Member) := fun w =>
  match heap w !! currentFaker w with
  | Some f =>
      match walk (definitions f) faker_object pathParts with
      | Truthy fakerFn => Ret (Some fakerFn) w
      | Falsy => Ret None w
      | ReadRaises e => Throw e w
      end
  | None => Throw undefined_read w
  end.

(** [this.currentFaker.a.b(args)] written out in the source. *)
Definition faker_call (path : list string) (args : list Value) : Eff Value :=
  fakerFn <- read_path path ;;
  match fakerFn with
  | Some fn =>
      if member_callable fn then call_member fn args
      else throw (TypeError "not a function")
  | None => throw (TypeError "not a function")
  end.

Definition lorem_word : Eff Value := faker_call ["lorem"; "word"] [].

Definition executeFakerMethod (fakerPath : string) : Eff Value :=
  match match_faker_path fakerPath with
  | None => lorem_word
  | Some (path, argsStr) =>
      fakerFn <- read_path (split_dot path) ;;
      match fakerFn with
      | None => lorem_word
      | Some fakerFn =>
          if negb (member_callable fakerFn) then lorem_word
          else match argsStr with
               | Some argsStr =>
                   try_catch
                     (match JSON_parse argsStr with
                      | Some args => call_member fakerFn [args]
                      | None => throw (SyntaxError "JSON.parse")
                      end)
                     (call_member fakerFn [])
               | None => call_member fakerFn []
               end
      end
  end.

Definition range (min max : Z) : Value :=
  VObject [("min", VInt min); ("max", VInt max)].

(** [fieldConfig?.faker] is truthy. *)
Definition faker_spec (fieldConfig : FieldMockConfig) : option string :=
  match faker fieldConfig with
  | Some spec => if String.eqb spec "" then None else Some spec
  | None => None
  end.

(** [fieldConfig.transform ? fieldConfig.transform(result) : result]. *)
Definition apply_transform (fieldConfig : FieldMockConfig) (result : Value) : Eff Value :=
  match transform fieldConfig with
  | Some f => f result
  | None => ret result
  end.

Definition generateString (path : string) (fieldConfig : option Override) : Eff Value :=
  let smart :=
    let fieldName := toLowerCase (getFieldName path) in
    if includes fieldName "email" then faker_call ["internet"; "email"] []
    else if includes fieldName "name" then faker_call ["person"; "fullName"] []
    else if includes fieldName "phone" then faker_call ["phone"; "number"] []
    else if includes fieldName "address" then faker_call ["location"; "streetAddress"] []
    else if includes fieldName "city" then faker_call ["location"; "city"] []
    else if includes fieldName "country" then faker_call ["location"; "country"] []
    else if includes fieldName "url" then faker_call ["internet"; "url"] []
    else if includes fieldName "title" then faker_call ["lorem"; "sentence"] []
    else if includes fieldName "description" then faker_call ["lorem"; "paragraph"] []
    else lorem_word in
  match fieldConfig with
  | Some (OvFunction fn) => v <- fn ;; ret (VString (ToString v))
  | Some (OvString spec) => v <- executeFakerMethod spec ;; ret (VString (ToString v))
  | Some (OvConfig fieldConfig) =>
      match faker_spec fieldConfig with
      | Some spec =>
          result <- executeFakerMethod spec ;;
          v <- apply_transform fieldConfig result ;;
          ret (VString (ToString v))
      | None => smart
      end
  | Some OvUndefined | None => smart
  end.

Definition generateNumber (path : string) (fieldConfig : option Override) : Eff Value :=
  let smart :=
    let fieldName := toLowerCase (getFieldName path) in
    if String.eqb fieldName "id" then faker_call ["number"; "int"] [range 1 100000]
    else if includes fieldName "age" then faker_call ["number"; "int"] [range 18 80]
    else if includes fieldName "price" || includes fieldName "cost" then
      faker_call ["number"; "float"]
        [VObject [("min", VInt 10); ("max", VInt 1000); ("fractionDigits", VInt 2)]]
    else if includes fieldName "count" || includes fieldName "quantity" then
      faker_call ["number"; "int"] [range 1 100]
    else faker_call ["number"; "int"] [] in
  match fieldConfig with
  | Some (OvFunction fn) => v <- fn ;; ret (VNumber (ToNumber v))
  | Some (OvString spec) => v <- executeFakerMethod spec ;; ret (VNumber (ToNumber v))
  | Some (OvConfig fieldConfig) =>
      match faker_spec fieldConfig with
      | Some spec =>
          result <- executeFakerMethod spec ;;
          v <- apply_transform fieldConfig result ;;
          ret (VNumber (ToNumber v))
      | None => smart
      end
  | Some OvUndefined | None => smart
  end.

Definition generateBoolean (path : string) (fieldConfig : option Override) : Eff Value :=
  match fieldConfig with
  | Some (OvFunction fn) => v <- fn ;; ret (VBool (ToBoolean v))
  | Some (OvString spec) => v <- executeFakerMethod spec ;; ret (VBool (ToBoolean v))
  | Some (OvConfig fieldConfig) =>
      match faker_spec fieldConfig with
      | Some spec =>
          result <- executeFakerMethod spec ;;
          v <- apply_transform fieldConfig result ;;
          ret (VBool (ToBoolean v))
      | None => faker_call ["datatype"; "boolean"] []
      end
  | Some OvUndefined | None => faker_call ["datatype"; "boolean"] []
  end.

Definition generateDate (path : string) (fieldConfig : option Override) : Eff Value :=
  let smart :=
    let fieldName := toLowerCase (getFieldName path) in
    if includes fieldName "created" || includes fieldName "birth" then
      faker_call ["date"; "past"] []
    else if includes fieldName "updated" || includes fieldName "modified" then
      faker_call ["date"; "recent"] []
    else if includes fieldName "expire" || includes fieldName "due" then
      faker_call ["date"; "future"] []
    else faker_call ["date"; "recent"] [] in
  match fieldConfig with
  | Some (OvFunction fn) => v <- fn ;; ret (ToDate v)
  | Some (OvString spec) => v <- executeFakerMethod spec ;; ret (ToDate v)
  | Some (OvConfig fieldConfig) =>
      match faker_spec fieldConfig with
      | Some spec =>
          result <- executeFakerMethod spec ;;
          v <- apply_transform fieldConfig result ;;
          ret (ToDate v)
      | None => smart
      end
  | Some OvUndefined | None => smart
  end.

(** The methods that walk the children of a node; [generateFromAST] stands
    for [this.generateFromAST] with the configuration fixed. *)
Section Children.
Variable generateFromAST : AST -> string -> Eff Value.

(** The loop of [generateObject] over [ast.propertySignatures]. *)
Fixpoint generateObject_loop (basePath : string) (props : list (string * AST))
    (result : list (string * Value)) : Eff Value :=
  match props with
  | [] => ret (VObject result)
  | (fieldName, type) :: rest =>
      v <- generateFromAST type (fieldPath basePath fieldName) ;;
      generateObject_loop basePath rest (obj_set result fieldName v)
  end.

Definition generateObject (propertySignatures : list (string * AST))
    (basePath : string) : Eff Value :=
  generateObject_loop basePath propertySignatures [].

(** [ast.types[index]], then the test on [randomType._tag]; reading
    [_tag] of [undefined] throws. *)
Fixpoint generateUnionAt (path : string) (types : list AST) (index : nat)
  : Eff Value :=
  match types with
  | [] => throw undefined_read
  | randomType :: rest =>
      match index with
      | O => match randomType with
             | Literal literal => ret literal
             | _ => generateFromAST randomType path
             end
      | S index' => generateUnionAt path rest index'
      end
  end.

Definition generateUnion (types : list AST) (path : string) : Eff Value :=
  k <- Math_random ;;
  generateUnionAt path types (random_index k (length types)).

(** [ast.elements.map((element, index) => ...)], from [index] on. *)
Fixpoint generateTuple_map (path : string) (elements : list AST) (index : nat)
  : Eff (list Value) :=
  match elements with
  | [] => ret []
  | element :: rest =>
      v <- generateFromAST element (elementPath path index) ;;
      vs <- generateTuple_map path rest (S index) ;;
      ret (v :: vs)
  end.

Definition generateTuple (elements : list AST) (path : string) : Eff Value :=
  items <- generateTuple_map path elements O ;;
  ret (VArray items).
End Children.

(** The [typeName] of [generateDeclaration], from the node's [_tag]. *)
Definition typeName (tag : string) (typeParameters : list AST) : string :=
  if (0 <? length typeParameters)%nat
  then tag +:+ "<" +:+ join ", " (map (fun _ => "unknown") typeParameters) +:+ ">"
  else tag.

Definition generateDeclaration (generateFromAST : AST -> string -> Eff Value)
    (tag : string) (typeParameters : list AST)
    (fieldConfig : option Override) (path : string) : Eff Value :=
  let typeName := typeName tag typeParameters in
  if String.eqb typeName "Date" then generateDate path fieldConfig
  else if String.eqb typeName "UUID" then faker_call ["string"; "uuid"] []
  else if String.eqb typeName "ULID" then faker_call ["string"; "alphanumeric"] [VInt 26]
  else if String.eqb typeName "Email" then faker_call ["internet"; "email"] []
  else if String.eqb typeName "URL" then faker_call ["internet"; "url"] []
  else match typeParameters with
       | parameter :: _ => generateFromAST parameter path
       | [] => lorem_word
       end.

(** An inherited member as the override the generators take it for. *)
Definition inherited_override (member : Inherited) : Override :=
  match member with
  | InheritedFunction (inl v) => OvFunction (ret v)
  | InheritedFunction (inr e) => OvFunction (throw e)
  | InheritedObject => OvConfig (mkFieldMockConfig None None None None)
  end.

(** [config[name]]: the own entry of the configuration, whatever it holds,
    else the member an ordinary object inherits under the name; [None] is
    the [undefined] of a name that is not found. *)
Definition config_read (config : gmap string Override) (name : string)
  : option Override :=
  match config !! name with
  | Some override => Some override
  | None => inherited_override <$> Object_prototype name
  end.

Fixpoint generateFromAST (ast : AST) (config : gmap string Override)
    (path : string) {struct ast} : Eff Value :=
  match ast with
  | StringKeyword => generateString path (config_read config (getFieldName path))
  | NumberKeyword => generateNumber path (config_read config (getFieldName path))
  | BooleanKeyword => generateBoolean path (config_read config (getFieldName path))
  | TypeLiteral propertySignatures =>
      generateObject (fun a p => generateFromAST a config p) propertySignatures path
  | Union types =>
      generateUnion (fun a p => generateFromAST a config p) types path
  | TupleType elements =>
      generateTuple (fun a p => generateFromAST a config p) elements path
  | Refinement from => generateFromAST from config path
  | Transformation from => generateFromAST from config path
  | Declaration _ typeParameters =>
      generateDeclaration (fun a p => generateFromAST a config p)
        (_tag ast) typeParameters (config_read config (getFieldName path)) path
  | Literal _ | OtherNode _ => lorem_word
  end.

(** [this.currentSeed = seedValue]. *)
Definition assign_currentSeed (seedValue : Z) : Eff unit :=
  fun w => Ret tt (set_currentSeed w (Some seedValue)).

(** [this.currentFaker = ...], by address. *)
Definition assign_currentFaker (a : nat) : Eff unit :=
  fun w => Ret tt (set_currentFaker w a).

(** [setSeed]. *)
Definition setSeed (seedValue : Z) : Eff unit :=
  _ <- assign_currentSeed seedValue ;;
  faker_seed seedValue.

(** [setupSeed]: the hash of a string seed, stored and applied. *)
Definition setupSeed (seed : Seed) : Eff unit :=
  let seedValue := seedValue seed in
  _ <- assign_currentSeed seedValue ;;
  faker_seed seedValue.

(** [EffectFaker.seed]: the same hash, applied to the module-level [faker]
    and handed to the generator.  (The facade's own copy of the seed is
    never read.) *)
Definition EffectFaker_seed (seed : Seed) : Eff unit :=
  let seedValue := seedValue seed in
  _ <- instance_seed 0 seedValue ;;
  setSeed seedValue.

(** [allLocales[locale]] where it is truthy: the own entry of the table,
    else what the table inherits under the name. *)
Definition locale_definition (code : string) : option LocaleDefinition :=
  match assoc code allLocales with
  | Some localeDefinition => Some localeDefinition
  | None => allLocales_inherited code
  end.

Definition locale_not_found (locale : string) : JsError :=
  Error ("Locale '" +:+ locale +:+ "' not found. Available locales: "
         +:+ join ", " (map fst allLocales)).

(** [if (this.currentSeed !== undefined) this.currentFaker.seed([this.currentSeed])]. *)
Definition reapply_seed : Eff unit := fun w =>
  match currentSeed w with
  | Some seedValue => faker_seed seedValue w
  | None => Ret tt w
  end.

Definition setupLocale (locale : LocaleOption) : Eff unit :=
  _ <- match locale with
       | LocaleCode code =>
           match locale_definition code with
           | Some localeDefinition =>
               a <- new_Faker localeDefinition ;;
               assign_currentFaker a
           | None => throw (locale_not_found code)
           end
       | LocaleFaker instance => assign_currentFaker instance
       | LocaleObject definition =>
           a <- new_Faker definition ;;
           assign_currentFaker a
       end ;;
  reapply_seed.

(** [if (options?.locale)]: an empty locale code is falsy. *)
Definition locale_truthy (locale : LocaleOption) : bool :=
  match locale with
  | LocaleCode code => negb (String.eqb code "")
  | LocaleObject _ | LocaleFaker _ => true
  end.

(** The two guarded statements of [generateSync] that precede its loop. *)
Definition setup_steps (options : MockOptions) : Eff unit :=
  _ <- match locale options with
       | Some locale => if locale_truthy locale then setupLocale locale else ret tt
       | None => ret tt
       end ;;
  match seed options with
  | Some seed => if seed_truthy seed then setupSeed seed else ret tt
  | None => ret tt
  end.

(** The [for] loop of [generateSync], from [i] up to [count]. *)
Fixpoint generate_loop (schema : AST) (config : gmap string Override)
    (remaining : nat) (results : list Value) : Eff (list Value) :=
  match remaining with
  | O => ret results
  | S remaining' =>
      mockData <- generateFromAST schema config "" ;;
      generate_loop schema config remaining' (results ++ [mockData])
  end.

Definition generateSync (schema : AST) (config : gmap string Override)
    (options : MockOptions) : Eff (list Value) :=
  let count := default 1%nat (count options) in
  _ <- match locale options with
       | Some locale => if locale_truthy locale then setupLocale locale else ret tt
       | None => ret tt
       end ;;
  _ <- match seed options with
       | Some seed => if seed_truthy seed then setupSeed seed else ret tt
       | None => ret tt
       end ;;
  generate_loop schema config count [].
End Engine.

(** ** The specification's own wording, for comparison with the code *)

Section SpecWording.
Context {P : Provider} {R : Runtime}.

(** Section 4.3, "Steps, per requested item": locale switch, reseed and
    evaluation, all three once for every item. *)
Fixpoint generate_per_item_spec (schema : AST) (config : gmap string Override)
    (options : MockOptions) (remaining : nat) (results : list Value)
  : Eff (list Value) :=
  match remaining with
  | O => ret results
  | S remaining' =>
      _ <- match locale options with
           | Some locale => setupLocale locale
           | None => ret tt
           end ;;
      _ <- match seed options with
           | Some seed => setupSeed seed
           | None => ret tt
           end ;;
      item <- generateFromAST schema config "" ;;
      generate_per_item_spec schema config options remaining' (results ++ [item])
  end.

Inductive PrimitiveKind : Type := KString | KNumber | KBoolean.

Definition primitive_node (kind : PrimitiveKind) : AST :=
  match kind with
  | KString => StringKeyword
  | KNumber => NumberKeyword
  | KBoolean => BooleanKeyword
  end.

(** "Coerce to the primitive kind". *)
Definition coerce (kind : PrimitiveKind) (v : Value) : Value :=
  match kind with
  | KString => VString (ToString v)
  | KNumber => VNumber (ToNumber v)
  | KBoolean => VBool (ToBoolean v)
  end.

Inductive NameTest : Type :=
| Contains (keyword : string)
| Equals (keyword : string).

Definition name_matches (fieldName : string) (test : NameTest) : bool :=
  match test with
  | Contains keyword => includes fieldName keyword
  | Equals keyword => String.eqb fieldName keyword
  end.

(** Section 4.3b: the ordered heuristic table of a kind; an entry is a test
    on the lower-cased field name and the provider call it selects. *)
Definition heuristic_table (kind : PrimitiveKind)
  : list (NameTest * (list string * list Value)) :=
  match kind with
  | KString =>
      [ (Contains "email", (["internet"; "email"], []));
        (Contains "name", (["person"; "fullName"], []));
        (Contains "phone", (["phone"; "number"], []));
        (Contains "address", (["location"; "streetAddress"], []));
        (Contains "city", (["location"; "city"], []));
        (Contains "country", (["location"; "country"], []));
        (Contains "url", (["internet"; "url"], []));
        (Contains "title", (["lorem"; "sentence"], []));
        (Contains "description", (["lorem"; "paragraph"], [])) ]
  | KNumber =>
      let float := [VObject [("min", VInt 10); ("max", VInt 1000);
                             ("fractionDigits", VInt 2)]] in
      [ (Equals "id", (["number"; "int"], [range 1 100000]));
        (Contains "age", (["number"; "int"], [range 18 80]));
        (Contains "price", (["number"; "float"], float));
        (Contains "cost", (["number"; "float"], float));
        (Contains "count", (["number"; "int"], [range 1 100]));
        (Contains "quantity", (["number"; "int"], [range 1 100])) ]
  | KBoolean => []
  end.

(** The default generator of a kind: a single word, an unconstrained
    integer, a true/false draw. *)
Definition kind_default (kind : PrimitiveKind) : list string * list Value :=
  match kind with
  | KString => (["lorem"; "word"], [])
  | KNumber => (["number"; "int"], [])
  | KBoolean => (["datatype"; "boolean"], [])
  end.

(** First match wins; no match selects the kind default. *)
Definition heuristic_choice (kind : PrimitiveKind) (fieldName : string)
  : list string * list Value :=
  match List.find (fun entry => name_matches (toLowerCase fieldName) (fst entry))
                  (heuristic_table kind) with
  | Some (_, generator) => generator
  | None => kind_default kind
  end.

(** What an override yields before coercion, when it takes part in the
    chain: a function, a method-spec string, or a structured override
    whose generator spec is not empty. *)
Definition override_result (override : Override) : option (Eff Value) :=
  match override with
  | OvFunction fn => Some fn
  | OvString spec => Some (executeFakerMethod spec)
  | OvConfig fieldConfig =>
      match faker fieldConfig with
      | Some spec =>
          if String.eqb spec "" then None
          else Some (result <- executeFakerMethod spec ;;
                     apply_transform fieldConfig result)
      | None => None
      end
  | OvUndefined => None
  end.

(** The precedence chain: override, then heuristic, then kind default. *)
Definition precedence_chain (kind : PrimitiveKind) (fieldName : string)
    (override : option Override) : Eff Value :=
  match override ≫= override_result with
  | Some run => v <- run ;; ret (coerce kind v)
  | None =>
      let '(path, args) := heuristic_choice kind fieldName in
      faker_call path args
  end.

(** The chain as the specification words it: every structured override
    that carries a generator spec goes to the interpreter. *)
Definition precedence_chain_spec (kind : PrimitiveKind) (fieldName : string)
    (override : option Override) : Eff Value :=
  match override with
  | Some (OvFunction fn) => v <- fn ;; ret (coerce kind v)
  | Some (OvString spec) => v <- executeFakerMethod spec ;; ret (coerce kind v)
  | Some (OvConfig (mkFieldMockConfig (Some spec) _ transform _)) =>
      result <- executeFakerMethod spec ;;
      v <- match transform with Some f => f result | None => ret result end ;;
      ret (coerce kind v)
  | _ =>
      let '(path, args) := heuristic_choice kind fieldName in
      faker_call path args
  end.
End SpecWording.

(** ** Vocabulary for determinism *)

(** A schema without [Union] nodes. *)
Fixpoint union_free (ast : AST) : bool :=
match ast with
| Union _ => false
| TypeLiteral propertySignatures =>
    forallb (fun prop => union_free (snd prop)) propertySignatures
| TupleType elements => forallb union_free elements
| Refinement from | Transformation from => union_free from
| Declaration _ typeParameters => forallb union_free typeParameters
| StringKeyword | NumberKeyword | BooleanKeyword | Literal _ | OtherNode _ => true
end.

Section Determinism.
Context {P : Provider} {R : Runtime}.

(** In both states [this.currentFaker] is a provider with the same locale
    data and the same randomizer state (or is undefined in both). *)
Definition same_provider (w1 w2 : World) : Prop :=
  heap w1 !! currentFaker w1 = heap w2 !! currentFaker w2.

(** Two outcomes with the same value, or the same error, that leave the
    same provider behind. *)
Definition agree {A} (o1 o2 : Outcome World A) : Prop :=
  match o1, o2 with
  | Ret a w1, Ret b w2 => a = b /\ same_provider w1 w2
  | Throw e1 w1, Throw e2 w2 => e1 = e2 /\ same_provider w1 w2
  | _, _ => False
  end.

(** A computation that reads and changes nothing but the current provider. *)
Definition provider_only {A} (m : Eff A) : Prop :=
  forall w1 w2, same_provider w1 w2 -> agree (m w1) (m w2).

(** An override whose function, or whose transform, depends on nothing but
    the current provider; a constant function is one. *)
Definition deterministic_override (override : Override) : Prop :=
  match override with
  | OvFunction fn => provider_only fn
  | OvString _ => True
  | OvConfig fieldConfig =>
      match transform fieldConfig with
      | Some f => forall v, provider_only (f v)
      | None => True
      end
  | OvUndefined => True
  end.

Definition deterministic_config (config : gmap string Override) : Prop :=
  forall name override, config !! name = Some override -> deterministic_override override.

(** The locale data of the provider that is current once the locale option
    has been dealt with: of the new instance, of the caller's instance, or of
    the provider that was current when the option is absent or falsy. *)
Definition locale_after (loc : option LocaleOption) (w : World)
  : option LocaleDefinition :=
  match loc with
  | Some (LocaleCode code) =>
      if String.eqb code "" then definitions <$> heap w !! currentFaker w
      else locale_definition code
  | Some (LocaleObject definition) => Some definition
  | Some (LocaleFaker instance) => definitions <$> heap w !! instance
  | None => definitions <$> heap w !! currentFaker w
  end.

(** The error of the setup steps when there is no such provider. *)
Definition setup_error (loc : option LocaleOption) : JsError :=
  match loc with
  | Some (LocaleCode code) =>
      if String.eqb code "" then undefined_read else locale_not_found code
  | _ => undefined_read
  end.

(** Same sequence returned, or same error thrown. *)
Definition same_result {A} (o1 o2 : Outcome World A) : Prop :=
  returned o1 = returned o2 /\ thrown o1 = thrown o2.
End Determinism.

(** ** The custom generator registry ([EffectFakerRegistry]) *)

(** [customFakers] is a [Map<string, () => unknown>]: its entries in
    insertion order, a key at most once.  The registered functions are of
    any type [F]; the registry only stores them. *)
Module Registry.
Section Store.
Context {F : Type}.

(** [new Map()]. *)
Definition empty : list (string * F) := [].

(** [map.set(name, fn)]: the entry of a key that is there is replaced where
    it stands, a new key goes to the end. *)
Fixpoint Map_set (customFakers : list (string * F)) (name : string) (fakerFn : F)
  : list (string * F) :=
  match customFakers with
  | [] => [(name, fakerFn)]
  | (k, x) :: rest =>
      if String.eqb k name then (k, fakerFn) :: rest
      else (k, x) :: Map_set rest name fakerFn
  end.

Definition register (name : string) (fakerFn : F) (customFakers : list (string * F))
  : list (string * F) :=
  Map_set customFakers name fakerFn.

(** [map.get(name)]; [None] is [undefined]. *)
Definition get (name : string) (customFakers : list (string * F)) : option F :=
  assoc name customFakers.

(** [map.has(name)]. *)
Definition has (name : string) (customFakers : list (string * F)) : bool :=
  existsb (fun entry => String.eqb (fst entry) name) customFakers.

(** [Array.from(map.keys())]. *)
Definition list (customFakers : Datatypes.list (string * F)) : Datatypes.list string :=
  map fst customFakers.

(** The registry after a sequence of [register] calls on a new one. *)
Definition after (calls : Datatypes.list (string * F)) : Datatypes.list (string * F) :=
  fold_left (fun customFakers call => register (fst call) (snd call) customFakers)
            calls empty.
End Store.
End Registry.

(** ** Vocabulary for the footprint of generation *)

Section Footprint.
Context {P : Provider} {R : Runtime}.

(** [EffectFaker.getAvailableLocales]: [Object.keys(allLocales)]. *)
Definition getAvailableLocales : list string := map fst allLocales.

(** From [w] to [w'] nothing changed but the randomizer of the current
    provider and the number of draws taken from [Math.random]. *)
Definition footprint (w w' : World) : Prop :=
  currentFaker w' = currentFaker w
  /\ currentSeed w' = currentSeed w
  /\ length (heap w') = length (heap w)
  /\ (forall a, a <> currentFaker w -> heap w' !! a = heap w !! a)
  /\ definitions <$> heap w' !! currentFaker w = definitions <$> heap w !! currentFaker w
  /\ mathRandom w' = mathRandom w
  /\ (drawn w <= drawn w')%nat.

(** A computation that stays within that footprint, however it ends. *)
Definition contained {A} (m : Eff A) : Prop :=
  forall w, footprint w (final (m w)).

(** An override whose function, or whose transform, stays within it; a
    function that touches no state does. *)
Definition contained_override (override : Override) : Prop :=
  match override with
  | OvFunction fn => contained fn
  | OvString _ => True
  | OvConfig fieldConfig =>
      match transform fieldConfig with
      | Some f => forall v, contained (f v)
      | None => True
      end
  | OvUndefined => True
  end.

Definition contained_config (config : gmap string Override) : Prop :=
  forall name override, config !! name = Some override -> contained_override override.

(** The randomizer of a provider the engine has just made current: that of
    the stored seed when there is one, else the one it came with. *)
Definition reapplied (stored : option Z) (own : Randomizer) : Randomizer :=
  match stored with
  | Some seedValue => seeded_randomizer [seedValue]
  | None => own
  end.

(** The value has the kind of the primitive node. *)
Definition of_kind (kind : PrimitiveKind) (v : Value) : Prop :=
  match kind with
  | KString => exists s, v = VString s
  | KNumber => exists n, v = VNumber n
  | KBoolean => exists b, v = VBool b
  end.
End Footprint.

(** ** A small provider and runtime to run the engine on

    They stand in for faker-js and the JavaScript built-ins wherever the
    engine is evaluated on a concrete input.  The provider has three locales,
    a linear congruential randomizer, and the members the engine names; like
    faker-js, [number.int] refuses a range whose maximum is below its
    minimum and [helpers.arrayElement] refuses to be called without an
    array. *)
Module Sample.

Definition api : list (list string) :=
  [ ["lorem"; "word"]; ["lorem"; "sentence"]; ["lorem"; "paragraph"];
    ["internet"; "email"]; ["internet"; "url"]; ["person"; "fullName"];
    ["phone"; "number"]; ["location"; "streetAddress"]; ["location"; "city"];
    ["location"; "country"]; ["number"; "int"]; ["number"; "float"];
    ["datatype"; "boolean"]; ["date"; "past"]; ["date"; "recent"];
    ["date"; "future"]; ["string"; "uuid"]; ["string"; "alphanumeric"];
    ["helpers"; "arrayElement"] ].

Fixpoint path_prefix (p q : list string) : bool :=
  match p, q with
  | [], _ => true
  | a :: p', b :: q' => String.eqb a b && path_prefix p' q'
  | _ :: _, [] => false
  end.

Definition path_eqb (p q : list string) : bool :=
  path_prefix p q && path_prefix q p.

Definition callable (m : list string) : bool := existsb (path_eqb m) api.

Definition strict_function_read : JsError :=
  TypeError "'caller', 'callee', and 'arguments' properties may not be accessed on strict mode functions or the arguments objects for calls to them".

(** A read: the members of the [api] and what leads to them; [caller] and
    [arguments] of a function raise, as they do on a strict or bound
    function. *)
Definition prop (title : string) (m : list string) (part : string)
  : Read (list string) :=
  if callable m && (String.eqb part "caller" || String.eqb part "arguments")
  then ReadRaises strict_function_read
  else if existsb (path_prefix (m ++ [part])) api then Truthy (m ++ [part])
  else Falsy.

Definition next (r : Z) : Z := (r * 1103515245 + 12345) mod 2 ^ 31.

(** [number.int(options)]: a range object, or a number taken as the
    maximum above a minimum of 0. *)
Definition int_bounds (args : list Value) : option (Z * Z) :=
  match args with
  | [VObject [(_, VNumber (Num lo)); (_, VNumber (Num hi))]] =>
      Some (Qnum lo, Qnum hi)
  | [VNumber (Num hi)] => Some (0, Qnum hi)
  | _ => None
  end.

Definition call (m : list string) (args : list Value) (title : string) (r : Z)
  : CallResult Z :=
  if path_eqb m ["number"; "int"] then
    match int_bounds args with
    | Some (lo, hi) =>
        if hi <? lo then Raises (FakerError "Max should be greater than min.") r
        else Returns (VInt (lo + next r mod (hi - lo + 1))) (next r)
    | None => Returns (VInt (next r)) (next r)
    end
  else if path_eqb m ["helpers"; "arrayElement"] then
    match args with
    | [] => Raises (FakerError "Calling arrayElement without arguments.") r
    | [VArray []] => Raises (FakerError "Cannot get value from empty dataset.") r
    | [VArray (x :: _)] => Returns x (next r)
    | _ => Returns VUndefined r
    end
  else if path_eqb m ["datatype"; "boolean"] then
    Returns (VBool (Z.odd (next r / 2 ^ 16))) (next r)
  else if path_prefix ["date"] m then
    Returns (VDate (Num (inject_Z (next r)))) (next r)
  else
    Returns (VString (title +:+ ":" +:+ join "." m +:+ "#" +:+ pretty (next r)))
            (next r).

Definition seeded (seeds : list Z) : Z :=
  fold_left (fun acc s => (acc * 31 + s) mod 2 ^ 31) seeds 7.

Definition to_object_error : JsError :=
  TypeError "Cannot convert undefined or null to object".

(** The members of [Object.prototype], called as [fieldConfig()]:
    [Object()] is a new object, [toString] and [isPrototypeOf] answer for
    an undefined [this], the other methods refuse it; [__proto__] reads as
    [Object.prototype] itself. *)
Definition object_prototype (name : string) : option Inherited :=
  if String.eqb name "constructor" then Some (InheritedFunction (inl (VObject [])))
  else if String.eqb name "toString"
  then Some (InheritedFunction (inl (VString "[object Undefined]")))
  else if String.eqb name "isPrototypeOf" then Some (InheritedFunction (inl (VBool false)))
  else if existsb (String.eqb name)
            ["valueOf"; "toLocaleString"; "hasOwnProperty"; "propertyIsEnumerable";
             "__defineGetter__"; "__defineSetter__"; "__lookupGetter__";
             "__lookupSetter__"]
  then Some (InheritedFunction (inr to_object_error))
  else if String.eqb name "__proto__" then Some InheritedObject
  else None.

(** [allLocales] is an object literal: under the names of
    [Object.prototype] a read of it finds a truthy value, which [new Faker]
    takes as locale data. *)
Definition inherited_locale (name : string) : option string :=
  match object_prototype name with
  | Some _ => Some ("Object.prototype." +:+ name)
  | None => None
  end.

Definition provider : Provider := {|
  LocaleDefinition := string;
  Randomizer := Z;
  Member := list string;
  allLocales := [("en", "English"); ("fr", "French"); ("de", "German")];
  allLocales_inherited := inherited_locale;
  fresh_randomizer := fun k => k mod 2 ^ 31;
  seeded_randomizer := seeded;
  faker_object := [];
  member_prop := prop;
  member_callable := callable;
  member_call := call
|}.

Fixpoint digits_value (s : string) (acc : Z) : option Z :=
  match s with
  | EmptyString => Some acc
  | String c rest =>
      let n := Ascii.N_of_ascii c in
      if ((48 <=? n) && (n <=? 57))%N
      then digits_value rest (acc * 10 + Z.of_N (n - 48))
      else None
  end.

Definition parse_natural (s : string) : option Z :=
  if String.eqb s "" || (startsWith s "0" && negb (String.eqb s "0")) then None
  else digits_value s 0.

(** [JSON.parse] on the literals [true], [false], [null] and on integers
    without a leading zero; every other text is refused. *)
Definition parse (s : string) : option Value :=
  if String.eqb s "true" then Some (VBool true)
  else if String.eqb s "false" then Some (VBool false)
  else if String.eqb s "null" then Some VNull
  else match s with
       | String "-" digits => (fun n => VInt (- n)) <$> parse_natural digits
       | _ => VInt <$> parse_natural s
       end.

Definition to_string (v : Value) : string :=
  match v with
  | VUndefined => "undefined"
  | VNull => "null"
  | VBool true => "true"
  | VBool false => "false"
  | VNumber NaN => "NaN"
  | VNumber (Num q) => pretty (Qnum q / Z.pos (Qden q))
  | VString s => s
  | VDate _ => "[date]"
  | VArray _ => "[array]"
  | VObject _ => "[object Object]"
  end.

Definition to_number (v : Value) : JsNumber :=
  match v with
  | VNumber n => n
  | VBool true => Num 1
  | VBool false | VNull => Num 0
  | VString s =>
      match digits_value s 0 with Some z => Num (inject_Z z) | None => NaN end
  | VDate t => t
  | _ => NaN
  end.

Definition to_date (v : Value) : Value :=
  match v with
  | VDate t => VDate t
  | VNumber n => VDate n
  | _ => VDate NaN
  end.

Definition runtime : Runtime := {|
  JSON_parse := parse;
  ToString := to_string;
  ToNumber := to_number;
  ToDate := to_date;
  Object_prototype := object_prototype
|}.

(** A fresh generator: only the module-level [faker] (English) exists, it
    is the current provider, no seed is stored; [draws] are the values
    [Math.random] will return. *)
Definition world (draws : nat -> Z) : @World provider :=
  @mkWorld provider [@mkFaker provider "English" 1] draws 0 0 None.

Definition noConfig : gmap string (@Override provider) := ∅.

(** [Math.random] returning 0 every time, and returning 0 but for one
    draw, which is one half. *)
Definition zeros (n : nat) : Z := 0.

Definition half_at (i n : nat) : Z := if (n =? i)%nat then 2 ^ 52 else 0.

(** [S.Struct({ status: S.Union(S.Literal('active'), S.Literal('inactive')) })]. *)
Definition statusTypes : list AST :=
  [Literal (VString "active"); Literal (VString "inactive")].

Definition statusSchema : AST := TypeLiteral [("status", Union statusTypes)].

Definition seededEnglish : @MockOptions provider :=
  mkOptions (Some 1%nat) (Some (SeedString "test-seed")) (Some (LocaleCode "en")).

Definition twoSeeded : @MockOptions provider :=
  mkOptions (Some 2%nat) (Some (SeedNumber 42)) None.

(** [{ seed: 0, count: 1 }]. *)
Definition zeroSeeded : @MockOptions provider :=
  mkOptions (Some 1%nat) (Some (SeedNumber 0)) None.

(** [{ inStock: () => Math.random() > 0.3 }], the override of the README. *)
Definition randomConfig : gmap string (@Override provider) :=
  {[ "inStock" := OvFunction (k <- Math_random ;;
                              ret (VBool (3 * 2 ^ 53 <? 10 * (k mod 2 ^ 53)))) ]}.

(** [S.Struct({ inStock: S.Boolean })]. *)
Definition stockSchema : AST := TypeLiteral [("inStock", BooleanKeyword)].

(** [S.Struct({ id: S.Number, name: S.String, tags: S.Tuple(S.String, S.Boolean) })]. *)
Definition userSchema : AST :=
  TypeLiteral [("id", NumberKeyword); ("name", StringKeyword);
               ("tags", TupleType [StringKeyword; BooleanKeyword])].

(** [{ email: { faker: '' } }]. *)
Definition emptySpecConfig : gmap string (@Override provider) :=
  {[ "email" := OvConfig (mkFieldMockConfig (Some "") None None None) ]}.

(** [{ '': 'person.fullName' }]. *)
Definition emptyNameConfig : gmap string (@Override provider) :=
  {[ "" := OvString "person.fullName" ]}.

(** [{ name: 'internet.email' }]. *)
Definition nameConfig : gmap string (@Override provider) :=
  {[ "name" := OvString "internet.email" ]}.

Definition run {A} (m : @Eff provider A) (draws : nat -> Z) : Outcome (@World provider) A :=
  m (world draws).

(** A generator on which [seed(12345)] was called. *)
Definition seededWorld (draws : nat -> Z) : @World provider :=
  @mkWorld provider [@mkFaker provider "English" (seeded [12345])] draws 0 0 (Some 12345).

(** [{ name: 'person.firstName()' }], as the README and the tests write it. *)
Definition readmeConfig : gmap string (@Override provider) :=
  {[ "name" := OvString "person.firstName()" ]}.

(** [{ 'user.name': 'internet.email' }]: a key that is a full path. *)
Definition fullPathConfig : gmap string (@Override provider) :=
  {[ "user.name" := OvString "internet.email" ]}.
End Sample.

(** * Properties *)

(** ** The monad *)

Lemma bind_ret_l {S A B} (a : A) (k : A -> M S B) (w : S) :
  bind (ret a) k w = k a w.
Proof. reflexivity. Qed.

Lemma bind_assoc {S A B C} (m : M S A) (k : A -> M S B) (h : B -> M S C) (w : S) :
  bind (bind m k) h w = bind m (fun a => bind (k a) h) w.
Proof. unfold bind. destruct (m w); reflexivity. Qed.

Lemma bind_ret_r {S A} (m : M S A) (w : S) : bind m ret w = m w.
Proof. unfold bind, ret. destruct (m w); reflexivity. Qed.

Lemma returned_final {S A} (o : Outcome S A) (a : A) :
  returned o = Some a -> o = Ret a (final o).
Proof. destruct o; simpl; [now intros [= ->]|discriminate]. Qed.

Lemma bind_ext {S A B} (m : M S A) (k k' : A -> M S B) (w : S) :
  (forall a w', k a w' = k' a w') -> bind m k w = bind m k' w.
Proof. intros H. unfold bind. destruct (m w); auto. Qed.

(** ** 32-bit arithmetic and the seed hash *)

Lemma ToInt32_range (z : Z) : - 2 ^ 31 <= ToInt32 z < 2 ^ 31.
Proof.
  unfold ToInt32.
  pose proof (Z.mod_pos_bound (z + 2 ^ 31) (2 ^ 32) ltac:(lia)). lia.
Qed.

Lemma ToInt32_shift (z k : Z) : ToInt32 (z + k * 2 ^ 32) = ToInt32 z.
Proof.
  unfold ToInt32.
  replace (z + k * 2 ^ 32 + 2 ^ 31) with (z + 2 ^ 31 + k * 2 ^ 32) by ring.
  now rewrite Z_mod_plus_full.
Qed.

Lemma ToInt32_quotient (z : Z) : exists k, ToInt32 z = z + k * 2 ^ 32.
Proof.
  exists (- ((z + 2 ^ 31) / 2 ^ 32)). unfold ToInt32.
  rewrite Z.mod_eq by lia. ring.
Qed.

Lemma ToInt32_small (z : Z) : - 2 ^ 31 <= z < 2 ^ 31 -> ToInt32 z = z.
Proof.
  intros H. unfold ToInt32. rewrite Z.mod_small; lia.
Qed.

Lemma ToInt32_idem (z : Z) : ToInt32 (ToInt32 z) = ToInt32 z.
Proof. apply ToInt32_small, ToInt32_range. Qed.

Lemma and32_diag (z : Z) : and32 z z = ToInt32 z.
Proof. unfold and32. apply Z.land_diag. Qed.

(** One turn of the loop is one step of the multiply-by-31 fold. *)
Lemma hash_step_31 (hash char : Z) :
  hash_step hash char = ToInt32 (hash * 31 + char).
Proof.
  unfold hash_step, shl32. rewrite and32_diag, Z.shiftl_mul_pow2 by lia.
  destruct (ToInt32_quotient hash) as [k Hk].
  destruct (ToInt32_quotient (ToInt32 hash * 2 ^ 5)) as [j Hj].
  rewrite Hj, Hk.
  replace ((hash + k * 2 ^ 32) * 2 ^ 5 + j * 2 ^ 32 - hash + char)
    with (hash * 31 + char + (k * 2 ^ 5 + j) * 2 ^ 32) by ring.
  apply ToInt32_shift.
Qed.

Lemma hash_codes_fold (codes : list Z) (acc : Z) :
  fold_left hash_step codes acc
  = fold_left (fun acc code => ToInt32 (acc * 31 + code)) codes acc.
Proof.
  revert acc. induction codes as [|c codes IH]; intros acc; simpl.
  - reflexivity.
  - rewrite hash_step_31. apply IH.
Qed.

(** The intermediate value [(hash << 5) - hash + char] stays far below 2^53,
    where arithmetic on JavaScript numbers is exact. *)
Lemma hash_step_exact (hash char : Z) :
  - 2 ^ 31 <= hash < 2 ^ 31 -> 0 <= char < 2 ^ 16 ->
  - 2 ^ 53 < shl32 hash 5 - hash + char < 2 ^ 53.
Proof.
  intros Hh Hc. pose proof (ToInt32_range (Z.shiftl (ToInt32 hash) 5)).
  unfold shl32. lia.
Qed.

Lemma hash_codes_range (codes : list Z) : - 2 ^ 31 <= hash_codes codes < 2 ^ 31.
Proof.
  unfold hash_codes. rewrite hash_codes_fold.
  induction codes as [|c codes IH] using rev_ind.
  - simpl. lia.
  - rewrite fold_left_app. simpl. apply ToInt32_range.
Qed.

Section SeedProperties.
Context {P : Provider} {R : Runtime}.

Lemma setupSeed_run (seed : Seed) (w : World) :
  setupSeed seed w
  = instance_seed (currentFaker w) (seedValue seed)
      (set_currentSeed w (Some (seedValue seed))).
Proof. reflexivity. Qed.

Lemma instance_seed_currentSeed (a : nat) (n : Z) (w : World) :
  currentSeed (final (instance_seed a n w)) = currentSeed w.
Proof. unfold instance_seed. destruct (heap w !! a); reflexivity. Qed.

(** C7. The integer derived from a string seed is the fold
    [acc = acc * 31 + charCode] over the character codes, wrapped to the
    signed 32-bit range at every step, followed by the absolute value (and
    so is the loop of the source on any sequence of code units); a
    numeric seed is used unchanged; and what [setupSeed] stores as the
    active seed and seeds the provider with is this value, whatever the
    state it runs in; [EffectFaker.seed] hands the same value to the
    generator. *)
Theorem seed_derivation :
  (forall s : string, seedValue (SeedString s) = rolling_hash_spec (char_codes s))
  /\ (forall codes : list Z, Z.abs (hash_codes codes) = rolling_hash_spec codes)
  /\ (forall n : Z, seedValue (SeedNumber n) = n)
  /\ (forall (seed : Seed) (w : World),
        currentSeed (final (setupSeed seed w)) = Some (seedValue seed))
  /\ (forall (seed : Seed) (w : World) (f : FakerInstance),
        heap w !! currentFaker w = Some f ->
        exists w',
          setupSeed seed w = Ret tt w'
          /\ heap w' !! currentFaker w'
             = Some (mkFaker (definitions f) (seeded_randomizer [seedValue seed])))
  /\ (forall (seed : Seed) (w : World) (f : FakerInstance),
        heap w !! 0%nat = Some f ->
        currentSeed (final (EffectFaker_seed seed w)) = Some (seedValue seed)).
Proof.
  split; [|split; [|split; [|split; [|split]]]].
  - intros s. unfold seedValue, rolling_hash_spec, hash_codes.
    now rewrite hash_codes_fold.
  - intros codes. unfold rolling_hash_spec, hash_codes.
    now rewrite hash_codes_fold.
  - reflexivity.
  - intros seed w. rewrite setupSeed_run, instance_seed_currentSeed. reflexivity.
  - intros seed w f Hf. rewrite setupSeed_run. unfold instance_seed. simpl.
    rewrite Hf. eexists. split; [reflexivity|]. simpl.
    apply list_lookup_insert_eq. eapply lookup_lt_Some; eauto.
  - intros seed w f Hf. unfold EffectFaker_seed, setSeed, assign_currentSeed.
    unfold bind at 1. unfold instance_seed at 1. rewrite Hf.
    unfold bind, faker_seed. now rewrite instance_seed_currentSeed.
Qed.
End SeedProperties.

(** ** Substrings *)

Lemma startsWith_app (p s : string) : startsWith (p +:+ s) p = true.
Proof.
  induction p as [|c p IH]; simpl.
  - now destruct s.
  - now rewrite Ascii.eqb_refl, IH.
Qed.

Lemma includes_prefix (p s : string) : includes (p +:+ s) p = true.
Proof.
  destruct p as [|c p].
  - simpl. now destruct s.
  - change (includes (String c p +:+ s) (String c p))
      with (startsWith (String c p +:+ s) (String c p) || includes (p +:+ s) (String c p)).
    now rewrite startsWith_app.
Qed.

Lemma includes_refl (s : string) : includes s s = true.
Proof.
  pose proof (includes_prefix s "") as H.
  assert (s +:+ "" = s) as E.
  { clear H. induction s as [|c s IH]; [reflexivity|].
    change (String c (s +:+ "") = String c s). now rewrite IH. }
  now rewrite E in H.
Qed.

Lemma includes_suffix (a s k : string) :
  includes s k = true -> includes (a +:+ s) k = true.
Proof.
  intros H. induction a as [|c a IH]; simpl.
  - exact H.
  - change (startsWith (String c (a +:+ s)) k || includes (a +:+ s) k = true).
    rewrite IH. apply orb_true_r.
Qed.

(** A joined list shows each of its elements. *)
Lemma includes_join (sep : string) (parts : list string) (k : string) :
  k ∈ parts -> includes (join sep parts) k = true.
Proof.
  induction parts as [|p rest IH]; intros Hk.
  - inversion Hk.
  - destruct rest as [|q rest].
    + apply list_elem_of_singleton in Hk as ->. apply includes_refl.
    + change (join sep (p :: q :: rest)) with (p +:+ sep +:+ join sep (q :: rest)).
      apply elem_of_cons in Hk as [->|Hk].
      * apply includes_prefix.
      * apply includes_suffix, includes_suffix, IH, Hk.
Qed.

Lemma assoc_None {A} (key : string) (table : list (string * A)) :
  key ∉ map fst table -> assoc key table = None.
Proof.
  induction table as [|[k x] rest IH]; intros Hk; simpl.
  - reflexivity.
  - apply not_elem_of_cons in Hk as [Hne Hk].
    destruct (String.eqb_spec k key) as [->|_]; [now contradiction Hne|].
    now apply IH.
Qed.

Lemma assoc_Some {A} (key : string) (table : list (string * A)) (x : A) :
  assoc key table = Some x -> key ∈ map fst table.
Proof.
  induction table as [|[k y] rest IH]; simpl; [discriminate|].
  destruct (String.eqb_spec k key) as [->|_].
  - intros _. apply elem_of_cons. now left.
  - intros H. apply elem_of_cons. right. now apply IH.
Qed.

Section BatchProperties.
Context {P : Provider} {R : Runtime}.

Lemma generate_loop_snoc (schema : AST) (config : gmap string Override)
    (n : nat) (results : list Value) (w : World) :
  generate_loop schema config (S n) results w
  = (done <- generate_loop schema config n results ;;
     item <- generateFromAST schema config "" ;;
     ret (done ++ [item])) w.
Proof.
  revert results w. induction n as [|n IH]; intros results w.
  - simpl. unfold bind, ret.
    destruct (generateFromAST schema config "" w); reflexivity.
  - change (generate_loop schema config (S (S n)) results w)
      with ((item <- generateFromAST schema config "" ;;
             generate_loop schema config (S n) (results ++ [item])) w).
    change (generate_loop schema config (S n) results)
      with (item <- generateFromAST schema config "" ;;
            generate_loop schema config n (results ++ [item])).
    rewrite bind_assoc. apply bind_ext. intros item w'. apply IH.
Qed.

Lemma generate_loop_length (schema : AST) (config : gmap string Override)
    (n : nat) (results out : list Value) (w w' : World) :
  generate_loop schema config n results w = Ret out w' ->
  length out = (length results + n)%nat.
Proof.
  revert results w. induction n as [|n IH]; intros results w; simpl.
  - unfold ret. intros [= <- _]. lia.
  - unfold bind at 1. destruct (generateFromAST schema config "" w) as [v w1|e w1];
      [|discriminate].
    intros H. apply IH in H. rewrite length_app in H. simpl in H. lia.
Qed.

Lemma generateSync_steps (schema : AST) (config : gmap string Override)
    (options : MockOptions) (w : World) :
  generateSync schema config options w
  = match setup_steps options w with
    | Ret _ w' => generate_loop schema config (default 1%nat (count options)) [] w'
    | Throw e w' => Throw e w'
    end.
Proof.
  unfold generateSync, setup_steps. rewrite <- bind_assoc. unfold bind at 1.
  reflexivity.
Qed.

Lemma generateSync_setup (schema : AST) (config : gmap string Override)
    (options : MockOptions) (w : World) :
  generateSync schema config options w
  = (_ <- setup_steps options ;;
     generate_loop schema config (default 1%nat (count options)) []) w.
Proof. unfold generateSync, setup_steps. now rewrite bind_assoc. Qed.

(** C3, as amended.  The locale switch and the reseed are done once for
    the call, before the first item; only the evaluation of the root node
    at the empty path is repeated: a call for [n + 1] items is the call for
    [n] items followed by one more evaluation in the state the [n] items
    left, with no switch and no reseed in between; and a call for no item
    is the two setup steps alone. *)
Theorem steps_once_per_call (schema : AST) (config : gmap string Override)
    (n : nat) (sd : option Seed) (loc : option LocaleOption) (w : World) :
  generateSync schema config (mkOptions (Some (S n)) sd loc) w
  = (done <- generateSync schema config (mkOptions (Some n) sd loc) ;;
     item <- generateFromAST schema config "" ;;
     ret (done ++ [item])) w
  /\ generateSync schema config (mkOptions (Some O) sd loc) w
     = (_ <- setup_steps (mkOptions (Some O) sd loc) ;; ret []) w
  /\ (forall out w', generateSync schema config (mkOptions (Some n) sd loc) w
                     = Ret out w' -> length out = n).
Proof.
  split; [|split].
  - rewrite generateSync_setup.
    transitivity ((_ <- setup_steps (mkOptions (Some n) sd loc) ;;
                   done <- generate_loop schema config n [] ;;
                   item <- generateFromAST schema config "" ;;
                   ret (done ++ [item])) w).
    + apply bind_ext. intros _ w'. apply generate_loop_snoc.
    + rewrite <- bind_assoc. unfold bind at 1 3.
      rewrite <- generateSync_setup. reflexivity.
  - apply generateSync_setup.
  - intros out w' H. rewrite generateSync_setup in H. unfold bind in H.
    destruct (setup_steps _ w) as [[] w1|e w1]; [|discriminate].
    apply generate_loop_length in H. simpl in H. lia.
Qed.

(** C10. A seed option that is falsy, the number 0 or the empty string,
    is ignored: the call behaves in every state exactly as the call without
    a seed option, and when nothing else is asked of it (no locale, no
    item) it leaves the state, the provider's randomizer and the stored
    seed included, as it found it. *)
Theorem falsy_seed_ignored (schema : AST) (config : gmap string Override)
    (cnt : option nat) (loc : option LocaleOption) (w : World) :
  generateSync schema config (mkOptions cnt (Some (SeedNumber 0)) loc) w
  = generateSync schema config (mkOptions cnt None loc) w
  /\ generateSync schema config (mkOptions cnt (Some (SeedString "")) loc) w
     = generateSync schema config (mkOptions cnt None loc) w
  /\ generateSync schema config (mkOptions (Some O) (Some (SeedNumber 0)) None) w
     = Ret [] w
  /\ generateSync schema config (mkOptions (Some O) (Some (SeedString "")) None) w
     = Ret [] w.
Proof. repeat split; reflexivity. Qed.

(** C6, as amended.  Take a locale code that is not among the provider's
    known codes.  When the code is not empty and the table of locales
    inherits nothing under it, the call throws, before anything is generated
    and whatever the other options, an error whose message names the code
    and lists every known code; the state is left untouched, so no other
    locale takes its place.  The empty code is passed over by the guard on
    the option: the call is the call without a locale.  And a code under
    which the table inherits a truthy value is not refused: that value is
    taken as the locale data, as if it had been given as the locale
    option. *)
Theorem unknown_locale_fails (schema : AST) (config : gmap string Override)
    (cnt : option nat) (sd : option Seed) (code : string) (w : World) :
  code ∉ map fst allLocales ->
  (code <> "" -> allLocales_inherited code = None ->
   generateSync schema config (mkOptions cnt sd (Some (LocaleCode code))) w
   = Throw (locale_not_found code) w)
  /\ includes (error_message (locale_not_found code)) code = true
  /\ (forall known, known ∈ map fst allLocales ->
        includes (error_message (locale_not_found code)) known = true)
  /\ (code = "" ->
      generateSync schema config (mkOptions cnt sd (Some (LocaleCode code))) w
      = generateSync schema config (mkOptions cnt sd None) w)
  /\ (forall inherited, code <> "" -> allLocales_inherited code = Some inherited ->
        generateSync schema config (mkOptions cnt sd (Some (LocaleCode code))) w
        = generateSync schema config (mkOptions cnt sd (Some (LocaleObject inherited))) w).
Proof.
  intros Hunknown. apply assoc_None in Hunknown.
  split; [|split; [|split; [|split]]].
  - intros Hne Hinherited. unfold generateSync, bind. simpl.
    destruct (String.eqb_spec code "") as [->|_]; [now contradiction Hne|].
    simpl. unfold setupLocale, bind, locale_definition.
    now rewrite Hunknown, Hinherited.
  - unfold locale_not_found, error_message.
    apply includes_suffix, includes_prefix.
  - intros known Hknown. unfold locale_not_found, error_message.
    do 3 apply includes_suffix. now apply includes_join.
  - intros ->. reflexivity.
  - intros inherited Hne Hinherited. unfold generateSync. simpl.
    destruct (String.eqb_spec code "") as [->|_]; [now contradiction Hne|].
    simpl. unfold setupLocale, locale_definition.
    now rewrite Hunknown, Hinherited.
Qed.
End BatchProperties.

(** ** The method-spec pattern *)

Lemma append_cons (c : ascii) (s t : string) : String c s +:+ t = String c (s +:+ t).
Proof. reflexivity. Qed.

Lemma span_path_split (s p r : string) : span_path s = (p, r) -> s = p +:+ r.
Proof.
  revert p r. induction s as [|c s IH]; intros p r; simpl.
  - now intros [= <- <-].
  - destruct (is_path_char c).
    + destruct (span_path s) as [p' r'] eqn:E. intros [= <- <-].
      rewrite append_cons. f_equal. now apply IH.
    + now intros [= <- <-].
Qed.

Lemma span_path_chars (s p r : string) :
  span_path s = (p, r) -> all_chars is_path_char p = true.
Proof.
  revert p r. induction s as [|c s IH]; intros p r; simpl.
  - now intros [= <- <-].
  - destruct (is_path_char c) eqn:Hc.
    + destruct (span_path s) as [p' r'] eqn:E. intros [= <- <-].
      simpl. rewrite Hc. simpl. eapply IH; eauto.
    + now intros [= <- <-].
Qed.

Lemma span_path_stops (s p r : string) : span_path s = (p, r) -> stops_path r.
Proof.
  revert p r. induction s as [|c s IH]; intros p r; simpl.
  - now intros [= <- <-].
  - destruct (is_path_char c) eqn:Hc.
    + destruct (span_path s) as [p' r'] eqn:E. intros [= <- <-]. eapply IH; eauto.
    + intros [= <- <-]. exact Hc.
Qed.

Lemma span_path_intro (p r : string) :
  all_chars is_path_char p = true -> stops_path r -> span_path (p +:+ r) = (p, r).
Proof.
  intros Hp Hr. induction p as [|c p IH].
  - destruct r as [|c r]; [reflexivity|]. simpl in *. now rewrite Hr.
  - simpl in Hp. apply andb_true_iff in Hp as [Hc Hp].
    rewrite append_cons. simpl. rewrite Hc, (IH Hp). reflexivity.
Qed.

Lemma strip_close_spec (body argsStr : string) :
  strip_close body = Some argsStr <-> body = argsStr +:+ ")".
Proof.
  revert argsStr. induction body as [|c body IH]; intros argsStr.
  - simpl. split; [discriminate|]. now destruct argsStr.
  - destruct body as [|d body].
    + simpl. destruct (Ascii.eqb_spec c ")") as [->|Hc].
      * split; [now intros [= <-]|].
        destruct argsStr as [|a [|b argsStr]]; [reflexivity|discriminate..].
      * split; [discriminate|].
        destruct argsStr as [|a [|b argsStr]]; [|discriminate..].
        intros [= E]. now contradiction Hc.
    + change (strip_close (String c (String d body)))
        with (option_map (String c) (strip_close (String d body))).
      destruct (strip_close (String d body)) as [a|] eqn:E.
      * pose proof (proj1 (IH a) eq_refl) as E0. simpl. split.
        -- intros [= <-]. now rewrite E0.
        -- destruct argsStr as [|a' argsStr]; [discriminate|].
           rewrite append_cons. intros [= -> H].
           apply (proj2 (IH argsStr)) in H. congruence.
      * simpl. split; [discriminate|].
        destruct argsStr as [|a' argsStr]; [discriminate|].
        rewrite append_cons. intros [= -> H].
        apply (proj2 (IH argsStr)) in H. discriminate.
Qed.

(** The matcher decides the shape and returns its two parts. *)
Lemma match_faker_path_shape (fakerPath path : string) (blob : option string) :
  match_faker_path fakerPath = Some (path, blob) <-> method_shape fakerPath path blob.
Proof.
  unfold match_faker_path, method_shape. split.
  - destruct (span_path fakerPath) as [p r] eqn:E.
    pose proof (span_path_split _ _ _ E) as Hsplit.
    pose proof (span_path_chars _ _ _ E) as Hchars.
    destruct (String.eqb_spec p "") as [->|Hp]; [discriminate|].
    destruct r as [|c body].
    + intros [= <- <-]. repeat split; auto.
      rewrite Hsplit. clear. induction p as [|c p IH]; [reflexivity|].
      rewrite append_cons. now f_equal.
    + destruct (Ascii.eqb_spec c "(") as [->|_]; [|discriminate].
      destruct (strip_close body) as [a|] eqn:Ea; [|discriminate].
      apply strip_close_spec in Ea.
      destruct (String.eqb_spec a "") as [->|Ha]; [discriminate|]. simpl.
      destruct (all_chars _ a) eqn:Hall; [|discriminate].
      intros [= <- <-]. repeat split; auto.
      rewrite Hsplit, Ea. reflexivity.
  - intros (Hp & Hchars & Hblob). destruct blob as [a|].
    + destruct Hblob as (Ha & Hall & ->).
      rewrite (span_path_intro path ("(" +:+ a +:+ ")") Hchars) by reflexivity.
      destruct (String.eqb_spec path "") as [->|_]; [now contradiction Hp|].
      change ("(" +:+ a +:+ ")") with (String "(" (a +:+ ")")). cbv beta iota.
      rewrite Ascii.eqb_refl.
      rewrite (proj2 (strip_close_spec (a +:+ ")") a) eq_refl).
      destruct (String.eqb_spec a "") as [->|_]; [now contradiction Ha|].
      simpl. now rewrite Hall.
    + subst fakerPath.
      assert (path = path +:+ "") as E.
      { clear. induction path as [|c p IH]; [reflexivity|].
        rewrite append_cons. now f_equal. }
      rewrite E at 1. rewrite (span_path_intro path "" Hchars I).
      destruct (String.eqb_spec path "") as [->|_]; [now contradiction Hp|].
      reflexivity.
Qed.

Lemma match_faker_path_mismatch (fakerPath : string) :
  match_faker_path fakerPath = None
  <-> forall path blob, ~ method_shape fakerPath path blob.
Proof.
  split.
  - intros H path blob Hs. apply match_faker_path_shape in Hs. congruence.
  - intros H. destruct (match_faker_path fakerPath) as [[path blob]|] eqn:E;
      [|reflexivity].
    apply match_faker_path_shape in E. now apply H in E.
Qed.

Section InterpreterProperties.
Context {P : Provider} {R : Runtime}.

Lemma walk_app (d : LocaleDefinition) (m : Member) (pre post : list string) :
  walk d m (pre ++ post)
  = match walk d m pre with
    | Truthy m' => walk d m' post
    | Falsy => Falsy
    | ReadRaises e => ReadRaises e
    end.
Proof.
  revert m. induction pre as [|part pre IH]; intros m; simpl.
  - reflexivity.
  - destruct (member_prop d m part); [apply IH|reflexivity|reflexivity].
Qed.

(** A walk ends as soon as one segment is absent from the member reached
    so far. *)
Lemma walk_absent (d : LocaleDefinition) (m m' : Member) (pre post : list string)
    (part : string) :
  walk d m pre = Truthy m' -> member_prop d m' part = Falsy ->
  walk d m (pre ++ part :: post) = Falsy.
Proof.
  intros Hpre Hpart. rewrite walk_app, Hpre. simpl. now rewrite Hpart.
Qed.

(** And it raises as soon as the read of one segment does. *)
Lemma walk_raises (d : LocaleDefinition) (m m' : Member) (pre post : list string)
    (part : string) (e : JsError) :
  walk d m pre = Truthy m' -> member_prop d m' part = ReadRaises e ->
  walk d m (pre ++ part :: post) = ReadRaises e.
Proof.
  intros Hpre Hpart. rewrite walk_app, Hpre. simpl. now rewrite Hpart.
Qed.

Lemma read_path_current (pathParts : list string) (w : World) (f : FakerInstance) :
  heap w !! currentFaker w = Some f ->
  read_path pathParts w
  = match walk (definitions f) faker_object pathParts with
    | Truthy fakerFn => Ret (Some fakerFn) w
    | Falsy => Ret None w
    | ReadRaises e => Throw e w
    end.
Proof. intros H. unfold read_path. now rewrite H. Qed.

(** Without a current provider every read fails, that of the fallback word
    generator included. *)
Lemma read_path_undefined (pathParts : list string) (w : World) :
  heap w !! currentFaker w = None ->
  read_path pathParts w = Throw undefined_read w.
Proof. intros H. unfold read_path. now rewrite H. Qed.

Lemma faker_call_undefined (path : list string) (args : list Value) (w : World) :
  heap w !! currentFaker w = None ->
  faker_call path args w = Throw undefined_read w.
Proof. intros H. unfold faker_call, bind. now rewrite read_path_undefined. Qed.

(** Whatever the interpreter throws was thrown by a provider call without
    arguments, or by a property read of the walk. *)
Lemma executeFakerMethod_thrown (fakerPath : string) (w : World) (e : JsError) :
  thrown (executeFakerMethod fakerPath w) = Some e ->
  (exists w0,
      thrown (lorem_word w0) = Some e
      \/ exists fn, member_callable fn = true
                    /\ thrown (call_member fn [] w0) = Some e)
  \/ (exists path blob f,
        match_faker_path fakerPath = Some (path, blob)
        /\ heap w !! currentFaker w = Some f
        /\ walk (definitions f) faker_object (split_dot path) = ReadRaises e).
Proof.
  assert (forall w0, thrown (lorem_word w0) = Some e ->
            (exists w0,
                thrown (lorem_word w0) = Some e
                \/ exists fn, member_callable fn = true
                              /\ thrown (call_member fn [] w0) = Some e)
            \/ (exists path blob f,
                  match_faker_path fakerPath = Some (path, blob)
                  /\ heap w !! currentFaker w = Some f
                  /\ walk (definitions f) faker_object (split_dot path) = ReadRaises e))
    as Hword by (intros w0 H; left; exists w0; now left).
  assert (forall fn w0, member_callable fn = true ->
            thrown (call_member fn [] w0) = Some e ->
            (exists w0,
                thrown (lorem_word w0) = Some e
                \/ exists fn, member_callable fn = true
                              /\ thrown (call_member fn [] w0) = Some e)
            \/ (exists path blob f,
                  match_faker_path fakerPath = Some (path, blob)
                  /\ heap w !! currentFaker w = Some f
                  /\ walk (definitions f) faker_object (split_dot path) = ReadRaises e))
    as Hcalled by (intros fn w0 Hfn H; left; exists w0; right; now exists fn).
  unfold executeFakerMethod.
  destruct (match_faker_path fakerPath) as [[path blob]|]; [|apply Hword].
  unfold bind.
  destruct (heap w !! currentFaker w) as [f|] eqn:Hf.
  - rewrite (read_path_current _ _ _ Hf).
    destruct (walk (definitions f) faker_object (split_dot path)) as [fn| |e'] eqn:Hwalk;
      [|apply Hword|].
    + destruct (member_callable fn) eqn:Hcall; simpl; [|apply Hword].
      destruct blob as [argsStr|]; [|now apply Hcalled].
      unfold try_catch.
      destruct (JSON_parse argsStr) as [arg|].
      * destruct (call_member fn [arg] w) as [v w'|e'' w']; [discriminate|].
        now apply Hcalled.
      * unfold throw. now apply Hcalled.
    + simpl. intros [= ->]. right. now exists path, blob, f.
  - rewrite (read_path_undefined _ _ Hf). simpl. intros [= <-].
    apply (Hword w). unfold lorem_word. now rewrite faker_call_undefined.
Qed.

(** With a provider none of whose reads and calls raises, the interpreter
    returns a value for every string. *)
Lemma interpreter_total (fakerPath : string) (w : World) :
  (forall d m part e, member_prop d m part <> ReadRaises e) ->
  (forall w0, thrown (lorem_word w0) = None) ->
  (forall fn w0, member_callable fn = true -> thrown (call_member fn [] w0) = None) ->
  exists v w', executeFakerMethod fakerPath w = Ret v w'.
Proof.
  intros Hread Hword Hcall.
  assert (forall d parts m e, walk d m parts <> ReadRaises e) as Hwalk.
  { intros d parts. induction parts as [|part parts IH]; intros m e; simpl.
    - discriminate.
    - destruct (member_prop d m part) as [m'| |e'] eqn:E; [apply IH|discriminate|].
      now apply Hread in E. }
  destruct (executeFakerMethod fakerPath w) as [v w'|e w'] eqn:E; [eauto|].
  destruct (executeFakerMethod_thrown fakerPath w e)
    as [[w0 [H0|(fn & Hfn & H0)]]|(path & blob & f & _ & _ & H0)].
  - now rewrite E.
  - now rewrite Hword in H0.
  - now rewrite (Hcall fn w0 Hfn) in H0.
  - now apply Hwalk in H0.
Qed.

(** C5, as amended.  A string that does not have the shape [path(args)]
    gives the single-word fallback.  For a string of that shape the path is
    walked from the current provider by property reads, which the
    interpreter does not guard: a read that raises ends the evaluation with
    its exception.  A segment that reads falsy gives the fallback, and so
    does a path that resolves to a member that is not callable.  Without an
    argument blob the resolved function is called with no argument.  With a
    blob that fails to parse as JSON it is called with no argument; with a
    blob that parses it is called with that one argument, and called again
    with no argument should that call raise.  Whatever the interpreter
    throws was thrown by a property read of the walk or by a provider call
    without arguments: of the resolved function, or of the fallback word
    generator. *)
Theorem interpreter_cases (fakerPath : string) (w : World) :
  ((forall path blob, ~ method_shape fakerPath path blob) ->
     executeFakerMethod fakerPath w = lorem_word w)
  /\ (forall path blob f, method_shape fakerPath path blob ->
        heap w !! currentFaker w = Some f ->
        (forall pre part post m e,
            split_dot path = pre ++ part :: post ->
            walk (definitions f) faker_object pre = Truthy m ->
            member_prop (definitions f) m part = ReadRaises e ->
            executeFakerMethod fakerPath w = Throw e w)
        /\ (forall pre part post m,
              split_dot path = pre ++ part :: post ->
              walk (definitions f) faker_object pre = Truthy m ->
              member_prop (definitions f) m part = Falsy ->
              executeFakerMethod fakerPath w = lorem_word w)
        /\ (forall fn,
              walk (definitions f) faker_object (split_dot path) = Truthy fn ->
              member_callable fn = false ->
              executeFakerMethod fakerPath w = lorem_word w)
        /\ (forall fn,
              walk (definitions f) faker_object (split_dot path) = Truthy fn ->
              member_callable fn = true ->
              match blob with
              | None => executeFakerMethod fakerPath w = call_member fn [] w
              | Some argsStr =>
                  match JSON_parse argsStr with
                  | None => executeFakerMethod fakerPath w = call_member fn [] w
                  | Some arg =>
                      match call_member fn [arg] w with
                      | Ret v w' => executeFakerMethod fakerPath w = Ret v w'
                      | Throw _ w' =>
                          executeFakerMethod fakerPath w = call_member fn [] w'
                      end
                  end
              end))
  /\ (forall e, thrown (executeFakerMethod fakerPath w) = Some e ->
        (exists w0,
            thrown (lorem_word w0) = Some e
            \/ exists fn, member_callable fn = true
                          /\ thrown (call_member fn [] w0) = Some e)
        \/ (exists path blob f,
              method_shape fakerPath path blob
              /\ heap w !! currentFaker w = Some f
              /\ walk (definitions f) faker_object (split_dot path) = ReadRaises e)).
Proof.
  split; [|split].
  - intros H. apply match_faker_path_mismatch in H.
    unfold executeFakerMethod. now rewrite H.
  - intros path blob f Hshape Hf. apply match_faker_path_shape in Hshape.
    unfold executeFakerMethod. rewrite Hshape. unfold bind.
    rewrite (read_path_current _ _ _ Hf). split; [|split; [|split]].
    + intros pre part post m e Hsplit Hpre Hpart.
      now rewrite Hsplit, (walk_raises _ _ _ _ _ _ _ Hpre Hpart).
    + intros pre part post m Hsplit Hpre Hpart.
      now rewrite Hsplit, (walk_absent _ _ _ _ _ _ Hpre Hpart).
    + intros fn Hwalk Hcall. now rewrite Hwalk, Hcall.
    + intros fn Hwalk Hcall. rewrite Hwalk, Hcall. simpl.
      destruct blob as [argsStr|]; [|reflexivity].
      unfold try_catch. destruct (JSON_parse argsStr) as [arg|].
      * destruct (call_member fn [arg] w); reflexivity.
      * reflexivity.
  - intros e H. destruct (executeFakerMethod_thrown fakerPath w e H)
      as [H0|(path & blob & f & Hm & Hf & Hw)]; [now left|right].
    exists path, blob, f. split; [|split; assumption].
    now apply match_faker_path_shape.
Qed.
End InterpreterProperties.

Section PrimitiveProperties.
Context {P : Provider} {R : Runtime}.

Ltac first_match :=
  cbv zeta; unfold heuristic_choice, heuristic_table, kind_default;
  match goal with |- context [toLowerCase ?f] => generalize (toLowerCase f) end;
  intros n; simpl;
  repeat match goal with
         | |- context [includes ?n ?k] =>
             destruct (includes n k); simpl; try reflexivity
         | |- context [String.eqb ?n ?k] =>
             destruct (String.eqb n k); simpl; try reflexivity
         end.

(** The cascade of tests of [generateString] is the first match in the
    table of the kind. *)
Lemma generateString_smart (fieldName : string) (w : World) :
  (let '(path, args) := heuristic_choice KString fieldName in faker_call path args) w
  = (let n := toLowerCase fieldName in
     if includes n "email" then faker_call ["internet"; "email"] []
     else if includes n "name" then faker_call ["person"; "fullName"] []
     else if includes n "phone" then faker_call ["phone"; "number"] []
     else if includes n "address" then faker_call ["location"; "streetAddress"] []
     else if includes n "city" then faker_call ["location"; "city"] []
     else if includes n "country" then faker_call ["location"; "country"] []
     else if includes n "url" then faker_call ["internet"; "url"] []
     else if includes n "title" then faker_call ["lorem"; "sentence"] []
     else if includes n "description" then faker_call ["lorem"; "paragraph"] []
     else lorem_word) w.
Proof. first_match. Qed.

Lemma generateNumber_smart (fieldName : string) (w : World) :
  (let '(path, args) := heuristic_choice KNumber fieldName in faker_call path args) w
  = (let n := toLowerCase fieldName in
     if String.eqb n "id" then faker_call ["number"; "int"] [range 1 100000]
     else if includes n "age" then faker_call ["number"; "int"] [range 18 80]
     else if includes n "price" || includes n "cost" then
       faker_call ["number"; "float"]
         [VObject [("min", VInt 10); ("max", VInt 1000); ("fractionDigits", VInt 2)]]
     else if includes n "count" || includes n "quantity" then
       faker_call ["number"; "int"] [range 1 100]
     else faker_call ["number"; "int"] []) w.
Proof. first_match. Qed.

Lemma override_result_spec (fieldConfig : FieldMockConfig) :
  override_result (OvConfig fieldConfig)
  = (fun spec => result <- executeFakerMethod spec ;; apply_transform fieldConfig result)
      <$> faker_spec fieldConfig.
Proof.
  unfold override_result, faker_spec.
  destruct (faker fieldConfig) as [spec|]; [|reflexivity].
  now destruct (String.eqb spec "").
Qed.

Lemma generateString_chain (path : string) (override : option Override) (w : World) :
  generateString path override w
  = precedence_chain KString (getFieldName path) override w.
Proof.
  unfold precedence_chain.
  destruct override as [[fn|spec|fieldConfig| ]|]; [reflexivity..| | |].
  - change (Some (OvConfig fieldConfig) ≫= override_result)
      with (override_result (OvConfig fieldConfig)).
    rewrite override_result_spec. unfold generateString.
    destruct (faker_spec fieldConfig); simpl.
    + symmetry. apply bind_assoc.
    + symmetry. apply generateString_smart.
  - symmetry. apply generateString_smart.
  - symmetry. apply generateString_smart.
Qed.

Lemma generateNumber_chain (path : string) (override : option Override) (w : World) :
  generateNumber path override w
  = precedence_chain KNumber (getFieldName path) override w.
Proof.
  unfold precedence_chain.
  destruct override as [[fn|spec|fieldConfig| ]|]; [reflexivity..| | |].
  - change (Some (OvConfig fieldConfig) ≫= override_result)
      with (override_result (OvConfig fieldConfig)).
    rewrite override_result_spec. unfold generateNumber.
    destruct (faker_spec fieldConfig); simpl.
    + symmetry. apply bind_assoc.
    + symmetry. apply generateNumber_smart.
  - symmetry. apply generateNumber_smart.
  - symmetry. apply generateNumber_smart.
Qed.

Lemma generateBoolean_chain (path : string) (override : option Override) (w : World) :
  generateBoolean path override w
  = precedence_chain KBoolean (getFieldName path) override w.
Proof.
  unfold precedence_chain.
  destruct override as [[fn|spec|fieldConfig| ]|]; [reflexivity..| |reflexivity|reflexivity].
  change (Some (OvConfig fieldConfig) ≫= override_result)
    with (override_result (OvConfig fieldConfig)).
  rewrite override_result_spec. unfold generateBoolean.
  destruct (faker_spec fieldConfig); simpl; [|reflexivity].
  symmetry. apply bind_assoc.
Qed.

Lemma config_read_own (config : gmap string Override) (name : string)
    (override : Override) :
  config !! name = Some override -> config_read config name = Some override.
Proof. intros H. unfold config_read. now rewrite H. Qed.

Lemma config_read_inherited (config : gmap string Override) (name : string) :
  config !! name = None ->
  config_read config name = inherited_override <$> Object_prototype name.
Proof. intros H. unfold config_read. now rewrite H. Qed.

Lemma primitive_chain (kind : PrimitiveKind) (config : gmap string Override)
    (path : string) (w : World) :
  generateFromAST (primitive_node kind) config path w
  = precedence_chain kind (getFieldName path)
      (config_read config (getFieldName path)) w.
Proof.
  destruct kind; simpl.
  - apply generateString_chain.
  - apply generateNumber_chain.
  - apply generateBoolean_chain.
Qed.

(** C4, as amended.  A primitive field is resolved by the chain: a function
    override, else a method-spec string, else a structured override whose
    generator spec is not empty (interpreter, then the transform when there
    is one), each coerced to the kind; else the first matching entry of the
    heuristic table of the kind; else the default of the kind.  The override
    is what reading the configuration under the field's name gives: the
    entry configured under that name or, when there is none, the member an
    object inherits under it.  So where one of the three overrides is
    configured for the field's name, the coerced result of the override is
    returned whatever the name is, also for a name the heuristic table
    matches; a structured override with no generator spec, or an empty one,
    leaves the field to the heuristic and the default, and so does an entry
    that holds [undefined]; a field without an entry is left to the
    heuristic and the default when its name is not one every object
    inherits a member under, and is otherwise resolved with that member as
    its override: an inherited function that returns a value gives that
    value, coerced, and no heuristic is consulted. *)
Theorem override_precedence (kind : PrimitiveKind) (config : gmap string Override)
    (path : string) (w : World) :
  generateFromAST (primitive_node kind) config path w
  = precedence_chain kind (getFieldName path)
      (config_read config (getFieldName path)) w
  /\ (forall override run,
        config !! getFieldName path = Some override ->
        override_result override = Some run ->
        generateFromAST (primitive_node kind) config path w
        = (v <- run ;; ret (coerce kind v)) w)
  /\ (forall fieldConfig,
        config !! getFieldName path = Some (OvConfig fieldConfig) ->
        faker fieldConfig = None \/ faker fieldConfig = Some "" ->
        generateFromAST (primitive_node kind) config path w
        = precedence_chain kind (getFieldName path) None w)
  /\ (config !! getFieldName path = Some OvUndefined ->
      generateFromAST (primitive_node kind) config path w
      = precedence_chain kind (getFieldName path) None w)
  /\ (config !! getFieldName path = None ->
      Object_prototype (getFieldName path) = None ->
      generateFromAST (primitive_node kind) config path w
      = precedence_chain kind (getFieldName path) None w)
  /\ (forall member,
        config !! getFieldName path = None ->
        Object_prototype (getFieldName path) = Some member ->
        generateFromAST (primitive_node kind) config path w
        = precedence_chain kind (getFieldName path)
            (Some (inherited_override member)) w)
  /\ (forall v,
        config !! getFieldName path = None ->
        Object_prototype (getFieldName path) = Some (InheritedFunction (inl v)) ->
        generateFromAST (primitive_node kind) config path w = Ret (coerce kind v) w).
Proof.
  split; [apply primitive_chain|split; [|split; [|split; [|split; [|split]]]]].
  - intros override run Hov Hrun.
    rewrite primitive_chain, (config_read_own _ _ _ Hov).
    unfold precedence_chain. simpl. now rewrite Hrun.
  - intros fieldConfig Hov Hspec.
    rewrite primitive_chain, (config_read_own _ _ _ Hov).
    unfold precedence_chain. simpl.
    now destruct Hspec as [-> | ->].
  - intros Hov. now rewrite primitive_chain, (config_read_own _ _ _ Hov).
  - intros Hown Hinherited.
    now rewrite primitive_chain, (config_read_inherited _ _ Hown), Hinherited.
  - intros member Hown Hinherited.
    now rewrite primitive_chain, (config_read_inherited _ _ Hown), Hinherited.
  - intros v Hown Hinherited.
    now rewrite primitive_chain, (config_read_inherited _ _ Hown), Hinherited.
Qed.
End PrimitiveProperties.

(** ** Field names *)

Lemma split_dot_nonempty (s : string) : split_dot s <> [].
Proof.
  destruct s as [|c s]; simpl; [discriminate|].
  destruct (Ascii.eqb c "."); [discriminate|].
  destruct (split_dot s); discriminate.
Qed.

Lemma split_dot_app (a b : string) :
  split_dot (a +:+ "." +:+ b) = split_dot a ++ split_dot b.
Proof.
  induction a as [|c a IH].
  - reflexivity.
  - rewrite append_cons. simpl. rewrite IH.
    destruct (Ascii.eqb c "."); [reflexivity|].
    pose proof (split_dot_nonempty a).
    destruct (split_dot a); [contradiction|reflexivity].
Qed.

Lemma last_segment_fieldPath (basePath fieldName : string) :
  last_segment (fieldPath basePath fieldName) = last_segment fieldName.
Proof.
  unfold fieldPath, last_segment.
  destruct (String.eqb basePath ""); [reflexivity|].
  rewrite split_dot_app.
  pose proof (split_dot_nonempty fieldName) as H.
  destruct (split_dot fieldName) as [|seg segs] using rev_ind; [contradiction|].
  now rewrite app_assoc, !last_snoc.
Qed.

Lemma getFieldName_last_segment (path : string) :
  last_segment path <> "" -> getFieldName path = last_segment path.
Proof.
  unfold getFieldName, last_segment.
  destruct (last (split_dot path)) as [name|]; simpl.
  - intros H. destruct (String.eqb_spec name ""); [contradiction|reflexivity].
  - intros H. now contradiction H.
Qed.

Section FieldNameProperties.
Context {P : Provider} {R : Runtime}.

(** A primitive generator reads its path through [getFieldName] only. *)
Lemma primitive_by_field_name (kind : PrimitiveKind) (config : gmap string Override)
    (p1 p2 : string) (w : World) :
  getFieldName p1 = getFieldName p2 ->
  generateFromAST (primitive_node kind) config p1 w
  = generateFromAST (primitive_node kind) config p2 w.
Proof.
  intros H. destruct kind; simpl.
  - unfold generateString. now rewrite H.
  - unfold generateNumber. now rewrite H.
  - unfold generateBoolean. now rewrite H.
Qed.

(** C8, as amended.  The override of a field is looked up under the last
    segment of its path when that segment is not empty: two paths that end
    in the same non-empty name read the same configuration entry, and a
    primitive field is generated at one exactly as at the other; a path
    built by nesting a field under any base ends in the last segment of the
    field's name. *)
Theorem same_name_same_override (config : gmap string Override)
    (p1 p2 name : string) (w : World) :
  last_segment p1 = name -> last_segment p2 = name -> name <> "" ->
  config !! getFieldName p1 = config !! name
  /\ config !! getFieldName p2 = config !! name
  /\ (forall kind,
        generateFromAST (primitive_node kind) config p1 w
        = generateFromAST (primitive_node kind) config p2 w)
  /\ (forall basePath,
        last_segment (fieldPath basePath p1) = name).
Proof.
  intros H1 H2 Hname.
  assert (getFieldName p1 = name) as E1
    by (rewrite getFieldName_last_segment; congruence).
  assert (getFieldName p2 = name) as E2
    by (rewrite getFieldName_last_segment; congruence).
  rewrite E1, E2. repeat split.
  - intros kind. apply primitive_by_field_name. congruence.
  - intros basePath. now rewrite last_segment_fieldPath.
Qed.
End FieldNameProperties.

(** ** Unions *)

(** A product below 2^53 is a binary64 number. *)
Lemma binary64_round_exact (p : Z) : 0 <= p < 2 ^ 53 -> binary64_round p = p.
Proof.
  intros [H0 H1]. unfold binary64_round.
  destruct (Z.eq_dec p 0) as [->|Hp]; [reflexivity|].
  assert (Z.log2 p < 53) by (apply Z.log2_lt_pow2; lia).
  destruct (Z.leb_spec (Z.log2 p - 52) 0); [reflexivity|lia].
Qed.

(** The rounded product: a multiple [q * 2^e] of the unit [2^e] of its
    binade, next to the quotient of the product by the unit and within
    half a unit of the product; a unit above 1 is below [p / 2^52]. *)
Lemma binary64_round_spec (p : Z) :
  0 <= p ->
  exists e q,
    0 <= e
    /\ binary64_round p = q * 2 ^ e
    /\ p / 2 ^ e <= q <= p / 2 ^ e + 1
    /\ (p mod 2 ^ e = 0 -> q = p / 2 ^ e)
    /\ 2 * Z.abs (binary64_round p - p) <= 2 ^ e
    /\ (e = 0 \/ 2 ^ (52 + e) <= p).
Proof.
  intros Hp. unfold binary64_round.
  destruct (Z.leb_spec (Z.log2 p - 52) 0) as [He|He].
  - exists 0, p. rewrite Z.pow_0_r, Z.div_1_r, Z.mul_1_r, Z.sub_diag. simpl.
    repeat split; lia.
  - set (e := Z.log2 p - 52) in *.
    assert (0 < p) as Hpos.
    { destruct (Z.eq_dec p 0) as [->|]; [|lia]. simpl in e. lia. }
    pose proof (Z.log2_spec p Hpos) as [Hlo Hhi].
    assert (52 + e = Z.log2 p) as E52 by (unfold e; lia).
    assert (0 < 2 ^ e) as Hpow by (apply Z.pow_pos_nonneg; lia).
    assert (2 ^ e = 2 * 2 ^ (e - 1)) as Hhalf.
    { replace e with (1 + (e - 1)) at 1 by lia. rewrite Z.pow_add_r by lia. reflexivity. }
    pose proof (Z.div_mod p (2 ^ e) ltac:(lia)) as Hdm.
    pose proof (Z.mod_pos_bound p (2 ^ e) Hpow) as Hm.
    set (q := p / 2 ^ e) in *. set (r := p mod 2 ^ e) in *.
    assert (2 ^ (52 + e) <= p) as Hbig by (rewrite E52; exact Hlo).
    assert (0 < 2 ^ (e - 1)) as Hpow' by (apply Z.pow_pos_nonneg; lia).
    destruct ((r <? 2 ^ (e - 1)) || (r =? 2 ^ (e - 1)) && Z.even q) eqn:Hround.
    + exists e, q. repeat split; lia.
    + exists e, (q + 1). repeat split; lia.
Qed.

Lemma binary64_round_nonneg (p : Z) : 0 <= p -> 0 <= binary64_round p.
Proof.
  intros Hp. destruct (binary64_round_spec p Hp) as (e & q & He & -> & [Hq _] & _).
  assert (0 < 2 ^ e) by (apply Z.pow_pos_nonneg; lia).
  assert (0 <= p / 2 ^ e) by (apply Z.div_pos; lia). nia.
Qed.

(** Rounding does not cross a multiple of 2^53 that the product has not
    reached, and does not fall below one it has: such a multiple is a
    binary64 number of every binade a product below 2^106 can be in. *)
Lemma binary64_round_floor (p b : Z) :
  0 <= p < 2 ^ 106 -> b * 2 ^ 53 <= p -> b * 2 ^ 53 <= binary64_round p.
Proof.
  intros [Hp Hlt] Hb.
  destruct (binary64_round_spec p Hp) as (e & q & He & -> & [Hq _] & _ & _ & Hbig).
  assert (e <= 53) as He53.
  { destruct Hbig as [->|Hbig]; [lia|].
    destruct (Z.le_gt_cases e 53) as [|Hgt]; [assumption|exfalso].
    assert (2 ^ 106 <= 2 ^ (52 + e)) by (apply Z.pow_le_mono_r; lia). lia. }
  assert (0 < 2 ^ e) as Hpow by (apply Z.pow_pos_nonneg; lia).
  assert (2 ^ 53 = 2 ^ (53 - e) * 2 ^ e) as E.
  { rewrite <- Z.pow_add_r by lia. f_equal. lia. }
  assert (0 < 2 ^ (53 - e)) as Hpow' by (apply Z.pow_pos_nonneg; lia).
  set (c := 2 ^ (53 - e)) in *. set (u := 2 ^ e) in *.
  assert (b * c <= p / u) as Hdiv.
  { apply Z.div_le_lower_bound; [lia|]. rewrite E in Hb. lia. }
  rewrite E. nia.
Qed.

Lemma binary64_round_ceiling (p b : Z) :
  0 <= p < 2 ^ 106 -> p <= b * 2 ^ 53 -> binary64_round p <= b * 2 ^ 53.
Proof.
  intros [Hp Hlt] Hb.
  destruct (binary64_round_spec p Hp) as (e & q & He & -> & [_ Hq] & Hexact & _ & Hbig).
  assert (e <= 53) as He53.
  { destruct Hbig as [->|Hbig]; [lia|].
    destruct (Z.le_gt_cases e 53) as [|Hgt]; [assumption|exfalso].
    assert (2 ^ 106 <= 2 ^ (52 + e)) by (apply Z.pow_le_mono_r; lia). lia. }
  assert (0 < 2 ^ e) as Hpow by (apply Z.pow_pos_nonneg; lia).
  assert (2 ^ 53 = 2 ^ (53 - e) * 2 ^ e) as E.
  { rewrite <- Z.pow_add_r by lia. f_equal. lia. }
  pose proof (Z.div_mod p (2 ^ e) ltac:(lia)) as Hdm.
  pose proof (Z.mod_pos_bound p (2 ^ e) Hpow) as Hm.
  set (c := 2 ^ (53 - e)) in *. set (u := 2 ^ e) in *.
  rewrite E in *.
  destruct (Z.eq_dec (p mod u) 0) as [H0|H0].
  - rewrite (Hexact H0). nia.
  - assert (p / u < b * c) by nia. nia.
Qed.

(** The rounding error is below the length of the array. *)
Lemma binary64_round_error (k n : Z) :
  0 <= k < 2 ^ 53 -> 0 < n ->
  Z.abs (binary64_round (k * n) - k * n) < n.
Proof.
  intros Hk Hn.
  assert (0 <= k * n) as Hp by nia.
  destruct (binary64_round_spec (k * n) Hp) as (e & q & He & _ & _ & _ & Herr & Hbig).
  destruct (Z.eq_dec e 0) as [->|Hne]; [rewrite Z.pow_0_r in Herr; lia|].
  destruct Hbig as [|Hbig]; [contradiction|].
  assert (0 < e) as Hpos by lia.
  assert (2 ^ (52 + e) = 2 ^ 53 * 2 ^ (e - 1)) as E.
  { rewrite <- Z.pow_add_r by lia. f_equal. lia. }
  assert (2 ^ e = 2 * 2 ^ (e - 1)) as Hhalf.
  { replace e with (1 + (e - 1)) at 1 by lia. rewrite Z.pow_add_r by lia. reflexivity. }
  assert (0 < 2 ^ (e - 1)) by (apply Z.pow_pos_nonneg; lia).
  set (h := 2 ^ (e - 1)) in *.
  assert (h < n) by nia. lia.
Qed.

Lemma product_range (k : Z) (n : nat) :
  Z.of_nat n <= 2 ^ 53 -> 0 <= (k mod 2 ^ 53) * Z.of_nat n < 2 ^ 106.
Proof.
  intros Hn. pose proof (Z.mod_pos_bound k (2 ^ 53) ltac:(lia)) as Hk.
  change (2 ^ 106) with (2 ^ 53 * 2 ^ 53). nia.
Qed.

Lemma random_index_interval (k : Z) (n j : nat) :
  random_index k n = j
  <-> Z.of_nat j * 2 ^ 53 <= binary64_round ((k mod 2 ^ 53) * Z.of_nat n)
      < (Z.of_nat j + 1) * 2 ^ 53.
Proof.
  unfold random_index.
  pose proof (Z.mod_pos_bound k (2 ^ 53) ltac:(lia)) as Hk.
  set (x := binary64_round ((k mod 2 ^ 53) * Z.of_nat n)).
  assert (0 <= x) as Hx by (apply binary64_round_nonneg; nia).
  pose proof (Z.div_mod x (2 ^ 53) ltac:(lia)) as Hdm.
  pose proof (Z.mod_pos_bound x (2 ^ 53) ltac:(lia)) as Hm.
  assert (0 <= x / 2 ^ 53) as Hq by (apply Z.div_pos; lia).
  split.
  - intros <-. rewrite Z2Nat.id by assumption. lia.
  - intros [Hlo Hhi].
    assert (x / 2 ^ 53 = Z.of_nat j) as ->; [|apply Nat2Z.id].
    symmetry. apply (Z.div_unique x (2 ^ 53) (Z.of_nat j) (x - Z.of_nat j * 2 ^ 53)); lia.
Qed.

Lemma random_index_bound (k : Z) (n : nat) : (0 < n)%nat -> (random_index k n < n)%nat.
Proof.
  intros Hn.
  pose proof (proj1 (random_index_interval k n (random_index k n)) eq_refl) as [Hlo _].
  pose proof (Z.mod_pos_bound k (2 ^ 53) ltac:(lia)) as Hk.
  pose proof (binary64_round_error (k mod 2 ^ 53) (Z.of_nat n) Hk ltac:(lia)) as Herr.
  nia.
Qed.

(** A product that keeps the distance [n] from the next multiple of 2^53
    is floored as the exact product is. *)
Lemma random_index_inside (k : Z) (n j : nat) :
  Z.of_nat n <= 2 ^ 53 ->
  Z.of_nat j * 2 ^ 53 <= (k mod 2 ^ 53) * Z.of_nat n
                      <= (Z.of_nat j + 1) * 2 ^ 53 - Z.of_nat n ->
  (0 < n)%nat ->
  random_index k n = j.
Proof.
  intros Hn [Hlo Hhi] Hpos. apply random_index_interval.
  pose proof (Z.mod_pos_bound k (2 ^ 53) ltac:(lia)) as Hk.
  pose proof (binary64_round_error (k mod 2 ^ 53) (Z.of_nat n) Hk ltac:(lia)) as Herr.
  split; [|lia].
  apply binary64_round_floor; [now apply product_range|exact Hlo].
Qed.

(** The pick is the index of the exact product or the next one, the next
    one only for a product within [n] of the next multiple of 2^53. *)
Lemma random_index_near (k : Z) (n j : nat) :
  Z.of_nat n <= 2 ^ 53 -> (0 < n)%nat ->
  random_index k n = j ->
  Z.of_nat j * 2 ^ 53 - Z.of_nat n < (k mod 2 ^ 53) * Z.of_nat n
                                   < (Z.of_nat j + 1) * 2 ^ 53.
Proof.
  intros Hn Hpos Hj. apply random_index_interval in Hj as [Hlo Hhi].
  pose proof (Z.mod_pos_bound k (2 ^ 53) ltac:(lia)) as Hk.
  pose proof (binary64_round_error (k mod 2 ^ 53) (Z.of_nat n) Hk ltac:(lia)) as Herr.
  split; [lia|].
  destruct (Z.lt_ge_cases ((k mod 2 ^ 53) * Z.of_nat n) ((Z.of_nat j + 1) * 2 ^ 53))
    as [|Hge]; [assumption|exfalso].
  pose proof (binary64_round_floor _ (Z.of_nat j + 1) (product_range k n Hn) Hge). lia.
Qed.

Lemma exact_index_interval (k : Z) (n j : nat) :
  exact_index k n = j
  <-> Z.of_nat j * 2 ^ 53 <= (k mod 2 ^ 53) * Z.of_nat n < (Z.of_nat j + 1) * 2 ^ 53.
Proof.
  unfold exact_index.
  pose proof (Z.mod_pos_bound k (2 ^ 53) ltac:(lia)) as Hk.
  set (x := (k mod 2 ^ 53) * Z.of_nat n).
  assert (0 <= x) as Hx by (unfold x; nia).
  pose proof (Z.div_mod x (2 ^ 53) ltac:(lia)) as Hdm.
  pose proof (Z.mod_pos_bound x (2 ^ 53) ltac:(lia)) as Hm.
  assert (0 <= x / 2 ^ 53) as Hq by (apply Z.div_pos; lia).
  split.
  - intros <-. rewrite Z2Nat.id by assumption. lia.
  - intros [Hlo Hhi].
    assert (x / 2 ^ 53 = Z.of_nat j) as ->; [|apply Nat2Z.id].
    symmetry. apply (Z.div_unique x (2 ^ 53) (Z.of_nat j) (x - Z.of_nat j * 2 ^ 53)); lia.
Qed.

(** Rounding moves the pick by at most one place, upwards. *)
Lemma random_index_exact (k : Z) (n : nat) :
  Z.of_nat n <= 2 ^ 53 -> (0 < n)%nat ->
  random_index k n = exact_index k n \/ random_index k n = S (exact_index k n).
Proof.
  intros Hn Hpos.
  pose proof (random_index_near k n _ Hn Hpos eq_refl) as [Hlo Hhi].
  pose proof (proj1 (exact_index_interval k n _) eq_refl) as [Elo Ehi].
  pose proof (Z.mod_pos_bound k (2 ^ 53) ltac:(lia)) as Hk.
  assert (Z.of_nat (exact_index k n) <= Z.of_nat (random_index k n)
          <= Z.of_nat (exact_index k n) + 1) by nia.
  lia.
Qed.

(** Every index below the length is the pick of some draw. *)
Lemma random_index_onto (n j : nat) :
  (j < n)%nat -> Z.of_nat n <= 2 ^ 52 ->
  exists k, 0 <= k < 2 ^ 53 /\ random_index k n = j.
Proof.
  intros Hj Hn.
  set (N := Z.of_nat n). set (J := Z.of_nat j).
  assert (0 <= J < N) as HJ by (unfold J, N; lia).
  set (k := (J * 2 ^ 53 + N - 1) / N).
  pose proof (Z.div_mod (J * 2 ^ 53 + N - 1) N ltac:(lia)) as Hdm.
  pose proof (Z.mod_pos_bound (J * 2 ^ 53 + N - 1) N ltac:(lia)) as Hm.
  fold k in Hdm.
  assert (J * 2 ^ 53 <= k * N < J * 2 ^ 53 + N) as Hk by lia.
  assert (0 <= k < 2 ^ 53) as Hrange by nia.
  exists k. split; [exact Hrange|].
  apply random_index_inside; [unfold N in *; lia| |lia].
  rewrite Z.mod_small by exact Hrange. fold N J. nia.
Qed.

(** Three members and the draw 6004799503160661 / 2^53: the exact product
    is 2 - 2^-53, half way between two binary64 numbers, and rounds to 2;
    likewise for six members and the draw 7505999378950826 / 2^53. *)
Example rounding_moves_the_pick :
  random_index 6004799503160661 3 = 2%nat /\ exact_index 6004799503160661 3 = 1%nat
  /\ random_index 7505999378950826 6 = 5%nat /\ exact_index 7505999378950826 6 = 4%nat.
Proof. vm_compute. repeat split. Qed.

Section UnionProperties.
Context {P : Provider} {R : Runtime}.

Lemma generateUnionAt_lookup (rec : AST -> string -> Eff Value) (types : list AST)
    (path : string) (index : nat) (w : World) :
  generateUnionAt rec path types index w
  = match types !! index with
    | Some (Literal literal) => Ret literal w
    | Some member => rec member path w
    | None => Throw undefined_read w
    end.
Proof.
  revert index. induction types as [|t types IH]; intros index.
  - reflexivity.
  - destruct index as [|index]; [now destruct t|]. apply IH.
Qed.

(** C9.  A union with members evaluates by one draw [u] of [Math.random]:
    the member at index [floor(u * length)] is picked, the product being
    the binary64 one, and that index lies inside the list.  The pick is the
    index of the exact product or, for a product within [length * 2^-53] of
    the next integer, possibly the index after it: member [j] gets the
    draws of the interval [[j / length, (j + 1) / length)] but for a draw
    at either end, and no member goes without a draw.  A picked literal is
    returned as it is, any other picked member is evaluated at the same
    path, in the state after the draw.  So a value the union returns is a
    literal of a member or a value that member returns. *)
Theorem union_picks_member (types : list AST) (config : gmap string Override)
    (path : string) (w : World) :
  types <> [] ->
  let k := mathRandom w (drawn w) in
  let product := (k mod 2 ^ 53) * Z.of_nat (length types) in
  let w' := mkWorld (heap w) (mathRandom w) (S (drawn w)) (currentFaker w)
                    (currentSeed w) in
  (exists member,
      types !! random_index k (length types) = Some member
      /\ generateFromAST (Union types) config path w
         = match member with
           | Literal literal => Ret literal w'
           | _ => generateFromAST member config path w'
           end)
  /\ (forall j : nat,
        random_index k (length types) = j
        <-> Z.of_nat j * 2 ^ 53 <= binary64_round product < (Z.of_nat j + 1) * 2 ^ 53)
  /\ (Z.of_nat (length types) <= 2 ^ 53 ->
      (forall j : nat,
          Z.of_nat j * 2 ^ 53 <= product
                              <= (Z.of_nat j + 1) * 2 ^ 53 - Z.of_nat (length types) ->
          random_index k (length types) = j)
      /\ (forall j : nat,
            random_index k (length types) = j ->
            Z.of_nat j * 2 ^ 53 - Z.of_nat (length types) < product
                                                          < (Z.of_nat j + 1) * 2 ^ 53)
      /\ (random_index k (length types) = exact_index k (length types)
          \/ random_index k (length types) = S (exact_index k (length types))))
  /\ (Z.of_nat (length types) <= 2 ^ 52 ->
      forall j member, types !! j = Some member ->
        exists draw, 0 <= draw < 2 ^ 53 /\ random_index draw (length types) = j)
  /\ (forall v w'', generateFromAST (Union types) config path w = Ret v w'' ->
        exists member, member ∈ types
          /\ (member = Literal v
              \/ exists w1 w2, generateFromAST member config path w1 = Ret v w2)).
Proof.
  intros Hne k product w'.
  assert ((0 < length types)%nat) as Hpos
    by (destruct types; [contradiction|simpl; lia]).
  assert ((random_index k (length types) < length types)%nat) as Hlt
    by now apply random_index_bound.
  destruct (lookup_lt_is_Some_2 types _ Hlt) as [member Hmember].
  assert (generateFromAST (Union types) config path w
          = match member with
            | Literal literal => Ret literal w'
            | _ => generateFromAST member config path w'
            end) as Hrun.
  { change (generateFromAST (Union types) config path w)
      with (generateUnionAt (fun a p => generateFromAST a config p) path types
              (random_index k (length types)) w').
    rewrite generateUnionAt_lookup, Hmember. now destruct member. }
  split; [|split; [|split; [|split]]].
  - exists member. split; [exact Hmember|exact Hrun].
  - intros j. apply random_index_interval.
  - intros Hlen. split; [|split].
    + intros j Hj. now apply random_index_inside.
    + intros j Hj. now apply random_index_near.
    + now apply random_index_exact.
  - intros Hlen j other Hother. apply random_index_onto; [|exact Hlen].
    eapply lookup_lt_Some, Hother.
  - intros v w'' Hv. exists member. split.
    + eapply list_elem_of_lookup_2; eauto.
    + rewrite Hrun in Hv. destruct member; try (right; eauto; fail).
      left. now injection Hv as -> _.
Qed.
End UnionProperties.

(** ** Declarations *)

Section DeclarationProperties.
Context {P : Provider} {R : Runtime}.

Lemma typeName_Declaration (typeParameters : list AST) :
  let name := typeName "Declaration" typeParameters in
  String.eqb name "Date" = false /\ String.eqb name "UUID" = false
  /\ String.eqb name "ULID" = false /\ String.eqb name "Email" = false
  /\ String.eqb name "URL" = false.
Proof.
  unfold typeName. destruct typeParameters; simpl; repeat split; reflexivity.
Qed.

(** C2 (the code against the claim).  Whatever a declaration is named, the
    name [generateDeclaration] compares with [Date], [UUID], [ULID],
    [Email] and [URL] is built from the node's [_tag], which is
    [Declaration]: none of the five dedicated generators is reached.  A
    declaration with type parameters is generated as its first parameter,
    one without as a single word; so is a declaration named [Date]. *)
Theorem declaration_never_dispatches (identifier : string) (typeParameters : list AST)
    (config : gmap string Override) (path : string) (w : World) :
  generateFromAST (Declaration identifier typeParameters) config path w
  = match typeParameters with
    | parameter :: _ => generateFromAST parameter config path w
    | [] => lorem_word w
    end.
Proof.
  destruct (typeName_Declaration typeParameters) as (H1 & H2 & H3 & H4 & H5).
  cbv zeta in *. simpl. unfold generateDeclaration.
  rewrite H1, H2, H3, H4, H5. now destruct typeParameters.
Qed.
End DeclarationProperties.

(** ** Determinism of seeded generation *)

(** Induction on schema trees, through the lists of children. *)
Lemma AST_nested_ind (Q : AST -> Prop) :
  Q StringKeyword -> Q NumberKeyword -> Q BooleanKeyword ->
  (forall props, Forall (fun prop => Q (snd prop)) props -> Q (TypeLiteral props)) ->
  (forall types, Forall Q types -> Q (Union types)) ->
  (forall elements, Forall Q elements -> Q (TupleType elements)) ->
  (forall from, Q from -> Q (Refinement from)) ->
  (forall from, Q from -> Q (Transformation from)) ->
  (forall identifier parameters,
      Forall Q parameters -> Q (Declaration identifier parameters)) ->
  (forall literal, Q (Literal literal)) ->
  (forall tag, Q (OtherNode tag)) ->
  forall ast, Q ast.
Proof.
  intros HS HN HB HT HU HE HR HX HD HL HO.
  fix IH 1. intros [ | | |props|types|elements|from|from|identifier parameters|literal|tag].
  - exact HS.
  - exact HN.
  - exact HB.
  - apply HT. induction props as [|[name type] props IHprops]; constructor.
    + apply IH.
    + exact IHprops.
  - apply HU. induction types as [|type types IHtypes]; constructor.
    + apply IH.
    + exact IHtypes.
  - apply HE. induction elements as [|element elements IHelements]; constructor.
    + apply IH.
    + exact IHelements.
  - apply HR, IH.
  - apply HX, IH.
  - apply HD. induction parameters as [|parameter parameters IHparameters]; constructor.
    + apply IH.
    + exact IHparameters.
  - apply HL.
  - apply HO.
Qed.

Section DeterminismProperties.
Context {P : Provider} {R : Runtime}.

Lemma provider_only_ret {A} (a : A) : provider_only (ret a).
Proof. intros w1 w2 H. simpl. auto. Qed.

Lemma provider_only_throw {A} (e : JsError) : provider_only (@throw World A e).
Proof. intros w1 w2 H. simpl. auto. Qed.

Lemma provider_only_bind {A B} (m : Eff A) (k : A -> Eff B) :
  provider_only m -> (forall a, provider_only (k a)) -> provider_only (bind m k).
Proof.
  intros Hm Hk w1 w2 H. unfold bind. specialize (Hm w1 w2 H).
  destruct (m w1) as [a1 w1'|e1 w1'], (m w2) as [a2 w2'|e2 w2']; simpl in Hm;
    try contradiction.
  - destruct Hm as [-> Hm]. now apply Hk.
  - exact Hm.
Qed.

Lemma provider_only_try_catch {A} (m h : Eff A) :
  provider_only m -> provider_only h -> provider_only (try_catch m h).
Proof.
  intros Hm Hh w1 w2 H. unfold try_catch. specialize (Hm w1 w2 H).
  destruct (m w1) as [a1 w1'|e1 w1'], (m w2) as [a2 w2'|e2 w2']; simpl in Hm;
    try contradiction.
  - exact Hm.
  - destruct Hm as [_ Hm]. now apply Hh.
Qed.

Lemma lookup_current_insert (w : World) (f g : FakerInstance) :
  heap w !! currentFaker w = Some f ->
  <[currentFaker w := g]> (heap w) !! currentFaker w = Some g.
Proof. intros H. apply list_lookup_insert_eq. eapply lookup_lt_Some; eauto. Qed.

Lemma call_member_provider_only (fn : Member) (args : list Value) :
  provider_only (call_member fn args).
Proof.
  intros w1 w2 H. unfold call_member. red in H.
  destruct (heap w1 !! currentFaker w1) as [f|] eqn:E1; rewrite <- H.
  - symmetry in H.
    destruct (member_call fn args (definitions f) (randomizer f)) as [v r|e r];
      simpl; (split; [reflexivity|]); unfold same_provider; simpl;
      now rewrite (lookup_current_insert w1 f _ E1), (lookup_current_insert w2 f _ H).
  - simpl. split; [reflexivity|]. red. congruence.
Qed.

Lemma read_path_provider_only (pathParts : list string) :
  provider_only (read_path pathParts).
Proof.
  intros w1 w2 H. unfold read_path. red in H.
  destruct (heap w1 !! currentFaker w1) as [f|] eqn:E1; rewrite <- H.
  - destruct (walk (definitions f) faker_object pathParts); simpl;
      (split; [reflexivity|]); red; congruence.
  - simpl. split; [reflexivity|]. red. congruence.
Qed.

Lemma faker_call_provider_only (path : list string) (args : list Value) :
  provider_only (faker_call path args).
Proof.
  unfold faker_call. apply provider_only_bind; [apply read_path_provider_only|].
  intros [fn|].
  - destruct (member_callable fn).
    + apply call_member_provider_only.
    + apply provider_only_throw.
  - apply provider_only_throw.
Qed.

Lemma executeFakerMethod_provider_only (fakerPath : string) :
  provider_only (executeFakerMethod fakerPath).
Proof.
  unfold executeFakerMethod, lorem_word.
  destruct (match_faker_path fakerPath) as [[path blob]|];
    [|apply faker_call_provider_only].
  apply provider_only_bind; [apply read_path_provider_only|].
  intros [fn|]; [|apply faker_call_provider_only].
  destruct (member_callable fn); simpl; [|apply faker_call_provider_only].
  destruct blob as [argsStr|]; [|apply call_member_provider_only].
  apply provider_only_try_catch; [|apply call_member_provider_only].
  destruct (JSON_parse argsStr);
    [apply call_member_provider_only|apply provider_only_throw].
Qed.

Lemma apply_transform_provider_only (fieldConfig : FieldMockConfig) (result : Value) :
  deterministic_override (OvConfig fieldConfig) ->
  provider_only (apply_transform fieldConfig result).
Proof.
  unfold apply_transform. simpl. destruct (transform fieldConfig) as [f|].
  - intros H. apply H.
  - intros _. apply provider_only_ret.
Qed.

(** What a configuration inherits depends on no state at all. *)
Lemma config_read_deterministic (config : gmap string Override) (name : string)
    (override : Override) :
  deterministic_config config ->
  config_read config name = Some override -> deterministic_override override.
Proof.
  intros Hconfig. unfold config_read.
  destruct (config !! name) as [own|] eqn:Hown.
  - intros [= <-]. eapply Hconfig, Hown.
  - destruct (Object_prototype name) as [[[v|e]|]|]; simpl; intros [= <-]; simpl.
    + apply provider_only_ret.
    + apply provider_only_throw.
    + exact I.
Qed.

(** What the four field generators share: overrides first, then a
    provider call chosen from the field name. *)
Lemma override_then_smart (coerced : Value -> Value) (smart : Eff Value)
    (fieldConfig : option Override) :
  provider_only smart ->
  (forall override, fieldConfig = Some override -> deterministic_override override) ->
  provider_only
    (match fieldConfig with
     | Some (OvFunction fn) => v <- fn ;; ret (coerced v)
     | Some (OvString spec) => v <- executeFakerMethod spec ;; ret (coerced v)
     | Some (OvConfig fieldConfig) =>
         match faker_spec fieldConfig with
         | Some spec =>
             result <- executeFakerMethod spec ;;
             v <- apply_transform fieldConfig result ;;
             ret (coerced v)
         | None => smart
         end
     | Some OvUndefined | None => smart
     end).
Proof.
  intros Hsmart Hov. destruct fieldConfig as [[fn|spec|fieldConfig| ]|];
    [| | |exact Hsmart|exact Hsmart].
  - apply provider_only_bind; [apply (Hov _ eq_refl)|intros; apply provider_only_ret].
  - apply provider_only_bind;
      [apply executeFakerMethod_provider_only|intros; apply provider_only_ret].
  - destruct (faker_spec fieldConfig); [|exact Hsmart].
    apply provider_only_bind; [apply executeFakerMethod_provider_only|intros result].
    apply provider_only_bind; [|intros; apply provider_only_ret].
    apply apply_transform_provider_only, (Hov _ eq_refl).
Qed.

Ltac smart_calls :=
  cbv zeta;
  repeat match goal with
         | |- provider_only (if ?b then _ else _) => destruct b
         end;
  apply faker_call_provider_only.

Lemma generateString_provider_only (path : string) (fieldConfig : option Override) :
  (forall override, fieldConfig = Some override -> deterministic_override override) ->
  provider_only (generateString path fieldConfig).
Proof.
  intros H. unfold generateString.
  apply (override_then_smart (fun v => VString (ToString v))); [|exact H].
  unfold lorem_word. smart_calls.
Qed.

Lemma generateNumber_provider_only (path : string) (fieldConfig : option Override) :
  (forall override, fieldConfig = Some override -> deterministic_override override) ->
  provider_only (generateNumber path fieldConfig).
Proof.
  intros H. unfold generateNumber.
  apply (override_then_smart (fun v => VNumber (ToNumber v))); [|exact H].
  smart_calls.
Qed.

Lemma generateBoolean_provider_only (path : string) (fieldConfig : option Override) :
  (forall override, fieldConfig = Some override -> deterministic_override override) ->
  provider_only (generateBoolean path fieldConfig).
Proof.
  intros H. unfold generateBoolean.
  apply (override_then_smart (fun v => VBool (ToBoolean v))); [|exact H].
  apply faker_call_provider_only.
Qed.

Lemma generateObject_loop_provider_only (rec : AST -> string -> Eff Value)
    (basePath : string) (props : list (string * AST)) (result : list (string * Value)) :
  Forall (fun prop => forall path, provider_only (rec (snd prop) path)) props ->
  provider_only (generateObject_loop rec basePath props result).
Proof.
  intros H. revert result. induction H as [|[fieldName type] props Hhead _ IH];
    intros result; simpl.
  - apply provider_only_ret.
  - apply provider_only_bind; [apply Hhead|intros v; apply IH].
Qed.

Lemma generateTuple_map_provider_only (rec : AST -> string -> Eff Value)
    (path : string) (elements : list AST) (index : nat) :
  Forall (fun element => forall path, provider_only (rec element path)) elements ->
  provider_only (generateTuple_map rec path elements index).
Proof.
  intros H. revert index. induction H as [|element elements Hhead _ IH];
    intros index; simpl.
  - apply provider_only_ret.
  - apply provider_only_bind; [apply Hhead|intros v].
    apply provider_only_bind; [apply IH|intros vs; apply provider_only_ret].
Qed.

Lemma generateFromAST_Declaration (identifier : string) (typeParameters : list AST)
    (config : gmap string Override) (path : string) :
  generateFromAST (Declaration identifier typeParameters) config path
  = match typeParameters with
    | parameter :: _ => generateFromAST parameter config path
    | [] => lorem_word
    end.
Proof.
  destruct (typeName_Declaration typeParameters) as (H1 & H2 & H3 & H4 & H5).
  cbv zeta in *. simpl. unfold generateDeclaration.
  rewrite H1, H2, H3, H4, H5. now destruct typeParameters.
Qed.

(** On a schema without unions and with deterministic overrides, the
    evaluation of a node reads and changes nothing but the current
    provider. *)
Lemma generateFromAST_provider_only (config : gmap string Override) (ast : AST) :
  deterministic_config config ->
  union_free ast = true ->
  forall path, provider_only (generateFromAST ast config path).
Proof.
  intros Hconfig. induction ast as
    [ | | |props IH|types IH|elements IH|from IH|from IH|identifier parameters IH
    |literal|tag] using AST_nested_ind; intros Hfree path.
  - apply generateString_provider_only. intros ov Hov.
    eapply config_read_deterministic; eassumption.
  - apply generateNumber_provider_only. intros ov Hov.
    eapply config_read_deterministic; eassumption.
  - apply generateBoolean_provider_only. intros ov Hov.
    eapply config_read_deterministic; eassumption.
  - simpl in Hfree. apply generateObject_loop_provider_only.
    apply Forall_forall. intros prop Hin path'.
    rewrite Forall_forall in IH. apply (IH prop Hin).
    rewrite forallb_forall in Hfree. apply Hfree. now apply list_elem_of_In.
  - discriminate.
  - simpl in Hfree. apply provider_only_bind; [|intros; apply provider_only_ret].
    apply generateTuple_map_provider_only.
    apply Forall_forall. intros element Hin path'.
    rewrite Forall_forall in IH. apply (IH element Hin).
    rewrite forallb_forall in Hfree. apply Hfree. now apply list_elem_of_In.
  - apply IH, Hfree.
  - apply IH, Hfree.
  - rewrite generateFromAST_Declaration. simpl in Hfree.
    destruct parameters as [|parameter parameters];
      [apply faker_call_provider_only|].
    simpl in Hfree. apply andb_true_iff in Hfree as [Hfree _].
    inversion IH as [|? ? Hhead _]; subst. now apply Hhead.
  - apply faker_call_provider_only.
  - apply faker_call_provider_only.
Qed.

Lemma generate_loop_provider_only (schema : AST) (config : gmap string Override)
    (n : nat) (results : list Value) :
  provider_only (generateFromAST schema config "") ->
  provider_only (generate_loop schema config n results).
Proof.
  intros H. revert results. induction n as [|n IH]; intros results; simpl.
  - apply provider_only_ret.
  - apply provider_only_bind; [exact H|intros item; apply IH].
Qed.

(** *** The setup steps *)

Lemma instance_seed_Some (a : nat) (n : Z) (w : World) (f : FakerInstance) :
  heap w !! a = Some f ->
  instance_seed a n w
  = Ret tt (set_heap w (<[a := mkFaker (definitions f) (seeded_randomizer [n])]> (heap w))).
Proof. intros H. unfold instance_seed. now rewrite H. Qed.

Lemma instance_seed_None (a : nat) (n : Z) (w : World) :
  heap w !! a = None -> instance_seed a n w = Throw undefined_read w.
Proof. intros H. unfold instance_seed. now rewrite H. Qed.

Lemma setupSeed_seeds (sd : Seed) (w : World) (f : FakerInstance) :
  heap w !! currentFaker w = Some f ->
  exists w',
    setupSeed sd w = Ret tt w'
    /\ heap w' !! currentFaker w'
       = Some (mkFaker (definitions f) (seeded_randomizer [seedValue sd])).
Proof.
  intros H. unfold setupSeed, bind, assign_currentSeed, faker_seed. simpl.
  rewrite (instance_seed_Some _ _ _ f) by exact H.
  eexists. split; [reflexivity|]. simpl. now apply (lookup_current_insert w f).
Qed.

Lemma setupSeed_undefined (sd : Seed) (w : World) :
  heap w !! currentFaker w = None ->
  exists w', setupSeed sd w = Throw undefined_read w'.
Proof.
  intros H. unfold setupSeed, bind, assign_currentSeed, faker_seed. simpl.
  rewrite instance_seed_None by exact H. eauto.
Qed.

Lemma reapply_seed_defined (w : World) (f : FakerInstance) :
  heap w !! currentFaker w = Some f ->
  exists w' f',
    reapply_seed w = Ret tt w'
    /\ heap w' !! currentFaker w' = Some f' /\ definitions f' = definitions f.
Proof.
  intros H. unfold reapply_seed, faker_seed. destruct (currentSeed w) as [s|].
  - rewrite (instance_seed_Some _ _ _ f) by exact H.
    eexists _, _. split; [reflexivity|]. simpl. split.
    + now apply (lookup_current_insert w f).
    + reflexivity.
  - eauto.
Qed.

Lemma reapply_seed_undefined (w : World) :
  heap w !! currentFaker w = None ->
  reapply_seed w = Ret tt w \/ reapply_seed w = Throw undefined_read w.
Proof.
  intros H. unfold reapply_seed, faker_seed. destruct (currentSeed w) as [s|].
  - right. now apply instance_seed_None.
  - now left.
Qed.

(** Once a new instance is made current, it is there with its locale. *)
Lemma new_Faker_current (d : LocaleDefinition) (w : World) :
  exists w' f,
    (a <- new_Faker d ;; assign_currentFaker a) w = Ret tt w'
    /\ heap w' !! currentFaker w' = Some f /\ definitions f = d.
Proof.
  eexists _, _. split; [reflexivity|]. simpl. split.
  - now apply list_lookup_middle.
  - reflexivity.
Qed.

(** The setup steps with a truthy seed end with the current provider
    holding the locale data [locale_after] names and the randomizer of the
    seed; with no such locale data they throw [setup_error]. *)
Lemma setup_steps_outcome (cnt : option nat) (sd : Seed) (loc : option LocaleOption)
    (w : World) :
  seed_truthy sd = true ->
  match locale_after loc w with
  | Some d =>
      exists w',
        setup_steps (mkOptions cnt (Some sd) loc) w = Ret tt w'
        /\ heap w' !! currentFaker w'
           = Some (mkFaker d (seeded_randomizer [seedValue sd]))
  | None =>
      exists w', setup_steps (mkOptions cnt (Some sd) loc) w = Throw (setup_error loc) w'
  end.
Proof.
  intros Hsd.
  assert (forall w0 f, heap w0 !! currentFaker w0 = Some f ->
            exists w', (if seed_truthy sd then setupSeed sd else ret tt) w0 = Ret tt w'
              /\ heap w' !! currentFaker w'
                 = Some (mkFaker (definitions f) (seeded_randomizer [seedValue sd])))
    as Hseed by (intros w0 f H0; rewrite Hsd; now apply setupSeed_seeds).
  assert (forall w0, heap w0 !! currentFaker w0 = None ->
            exists w', (if seed_truthy sd then setupSeed sd else ret tt) w0
                       = Throw undefined_read w')
    as Hnone by (intros w0 H0; rewrite Hsd; now apply setupSeed_undefined).
  assert (forall w0 f,
            heap w0 !! currentFaker w0 = Some f ->
            exists w', (_ <- reapply_seed ;;
                        if seed_truthy sd then setupSeed sd else ret tt) w0 = Ret tt w'
              /\ heap w' !! currentFaker w'
                 = Some (mkFaker (definitions f) (seeded_randomizer [seedValue sd])))
    as Hboth.
  { intros w0 f H0. destruct (reapply_seed_defined w0 f H0) as (w1 & f1 & E1 & H1 & D1).
    unfold bind. rewrite E1. rewrite <- D1. now apply Hseed. }
  unfold setup_steps, locale_after, setup_error. simpl.
  destruct loc as [[code|d|a]|]; simpl.
  - destruct (String.eqb code "") eqn:Hcode; simpl.
    + destruct (heap w !! currentFaker w) as [f|] eqn:E; simpl.
      * destruct (Hseed w f E) as (w' & E' & H'). unfold bind, ret. eauto.
      * destruct (Hnone w E) as (w' & E'). unfold bind, ret. eauto.
    + unfold setupLocale. destruct (locale_definition code) as [d|].
      * destruct (new_Faker_current d w) as (w1 & f1 & E1 & H1 & <-).
        rewrite bind_assoc. unfold bind at 1. rewrite E1. now apply Hboth.
      * unfold bind, throw. eauto.
  - unfold setupLocale.
    destruct (new_Faker_current d w) as (w1 & f1 & E1 & H1 & <-).
    rewrite bind_assoc. unfold bind at 1. rewrite E1. now apply Hboth.
  - unfold setupLocale. rewrite bind_assoc. unfold bind at 1, assign_currentFaker.
    destruct (heap w !! a) as [f|] eqn:E; simpl.
    + now apply (Hboth (set_currentFaker w a) f).
    + destruct (reapply_seed_undefined (set_currentFaker w a) E) as [E1|E1];
        unfold bind; rewrite E1; [|eauto].
      now apply (Hnone (set_currentFaker w a)).
  - destruct (heap w !! currentFaker w) as [f|] eqn:E; simpl.
    + destruct (Hseed w f E) as (w' & E' & H'). unfold bind, ret. eauto.
    + destruct (Hnone w E) as (w' & E'). unfold bind, ret. eauto.
Qed.

(** Two calls that leave the same locale data current return the same. *)
Lemma generateSync_same_result (schema : AST) (config : gmap string Override)
    (cnt : option nat) (sd : Seed) (loc : option LocaleOption) (w1 w2 : World) :
  union_free schema = true ->
  deterministic_config config ->
  seed_truthy sd = true ->
  locale_after loc w1 = locale_after loc w2 ->
  same_result (generateSync schema config (mkOptions cnt (Some sd) loc) w1)
              (generateSync schema config (mkOptions cnt (Some sd) loc) w2).
Proof.
  intros Hfree Hconfig Hsd Hlocale.
  pose proof (setup_steps_outcome cnt sd loc w1 Hsd) as H1.
  pose proof (setup_steps_outcome cnt sd loc w2 Hsd) as H2.
  rewrite <- Hlocale in H2.
  pose proof (generate_loop_provider_only schema config (default 1%nat cnt) []
                (generateFromAST_provider_only config schema Hconfig Hfree "")) as Hloop.
  rewrite !generateSync_steps. simpl count.
  destruct (locale_after loc w1) as [d|].
  - destruct H1 as (w1' & -> & P1), H2 as (w2' & -> & P2).
    assert (same_provider w1' w2') as Hsame by (red; congruence).
    specialize (Hloop w1' w2' Hsame).
    destruct (generate_loop schema config (default 1%nat cnt) [] w1'),
             (generate_loop schema config (default 1%nat cnt) [] w2'); simpl in Hloop;
      try contradiction; destruct Hloop as [-> _]; now split.
  - destruct H1 as (w1' & ->), H2 as (w2' & ->). now split.
Qed.

(** C1, as amended.  For a schema without unions, a configuration whose
    override functions and transforms depend on nothing but the current
    provider, a truthy seed and a count: two calls with a non-empty locale
    code, or with a locale definition, return the same sequence, or throw
    the same error, from whatever two states they start; so do two calls
    with any other locale option (a provider instance of the caller, an
    empty code, none) when the provider that option leaves current carries
    the same locale data at both calls. *)
Theorem seeded_generation_deterministic (schema : AST) (config : gmap string Override)
    (cnt : option nat) (sd : Seed) (loc : option LocaleOption) (w1 w2 : World) :
  union_free schema = true ->
  deterministic_config config ->
  seed_truthy sd = true ->
  let first := generateSync schema config (mkOptions cnt (Some sd) loc) w1 in
  let second := generateSync schema config (mkOptions cnt (Some sd) loc) w2 in
  (forall code, loc = Some (LocaleCode code) -> code <> "" -> same_result first second)
  /\ (forall definition, loc = Some (LocaleObject definition) -> same_result first second)
  /\ (locale_after loc w1 = locale_after loc w2 -> same_result first second).
Proof.
  intros Hfree Hconfig Hsd first second. split; [|split].
  - intros code -> Hcode. apply generateSync_same_result; auto.
    simpl. now destruct (String.eqb_spec code "").
  - intros definition ->. now apply generateSync_same_result.
  - intros Hlocale. now apply generateSync_same_result.
Qed.
End DeterminismProperties.

(** ** The engine on concrete inputs *)

Section Evaluations.
#[local] Existing Instance Sample.provider.
#[local] Existing Instance Sample.runtime.

(** C1, counterexample.  Two calls in a row with the same options return
    different sequences: on a schema with a union under a seed and a locale,
    since the union draws from [Math.random], which the seed does not reach;
    under the seed 0, which is passed over; and with the override function
    of the README, which draws from [Math.random] too. *)
Lemma repeated_calls_differ :
  (let first := generateSync Sample.statusSchema Sample.noConfig Sample.seededEnglish
                  (Sample.world (Sample.half_at 3)) in
   let second := generateSync Sample.statusSchema Sample.noConfig Sample.seededEnglish
                   (final first) in
   returned first = Some [VObject [("status", VString "active")]]
   /\ returned second = Some [VObject [("status", VString "inactive")]])
  /\ (let first := generateSync StringKeyword Sample.noConfig Sample.zeroSeeded
                     (Sample.world Sample.zeros) in
      let second := generateSync StringKeyword Sample.noConfig Sample.zeroSeeded
                      (final first) in
      returned first = Some [VString "English:lorem.word#1103527590"]
      /\ returned second = Some [VString "English:lorem.word#377401575"])
  /\ (let first := generateSync Sample.stockSchema Sample.randomConfig
                     Sample.seededEnglish (Sample.world (Sample.half_at 3)) in
      let second := generateSync Sample.stockSchema Sample.randomConfig
                      Sample.seededEnglish (final first) in
      returned first = Some [VObject [("inStock", VBool false)]]
      /\ returned second = Some [VObject [("inStock", VBool true)]]).
Proof. vm_compute. repeat split; reflexivity. Qed.

Lemma seeded_generation_deterministic_witness :
  union_free Sample.userSchema = true
  /\ seed_truthy (SeedString "test-seed") = true
  /\ (let options := mkOptions (Some 2%nat) (Some (SeedString "test-seed"))
                               (Some (LocaleCode "fr")) in
      let first := generateSync Sample.userSchema Sample.nameConfig options
                     (Sample.world Sample.zeros) in
      same_result first
                  (generateSync Sample.userSchema Sample.nameConfig options (final first))).
Proof.
  split; [reflexivity|split; [reflexivity|]]. cbv zeta.
  refine (proj1 (seeded_generation_deterministic Sample.userSchema Sample.nameConfig
                   (Some 2%nat) (SeedString "test-seed") (Some (LocaleCode "fr"))
                   _ _ eq_refl _ eq_refl) "fr" eq_refl _).
  - intros name override H. unfold Sample.nameConfig in H.
    apply lookup_singleton_Some in H as [_ <-]. exact I.
  - discriminate.
Defined.

(** A declaration named [Date] at the path [createdAt] comes out as a
    word, where [generateDate] would have given a date. *)
Example date_declaration_is_a_word :
  returned (Sample.run (generateFromAST (Declaration "Date" []) Sample.noConfig
                          "createdAt") Sample.zeros)
  = Some (VString "English:lorem.word#1103527590")
  /\ returned (Sample.run (generateDate "createdAt" None) Sample.zeros)
     = Some (VDate (Num (inject_Z 1103527590))).
Proof. vm_compute. split; reflexivity. Qed.

(** C3, counterexample.  For two items and the seed 42 the engine returns
    two different words; the steps taken once per item, as the claim has
    them, return the first word twice. *)
Lemma per_item_steps_differ :
  returned (Sample.run (generateSync StringKeyword Sample.noConfig Sample.twoSeeded)
              Sample.zeros)
  = Some [VString "English:lorem.word#195135616";
          VString "English:lorem.word#1046367929"]
  /\ returned (Sample.run (generate_per_item_spec StringKeyword Sample.noConfig
                             Sample.twoSeeded 2 []) Sample.zeros)
     = Some [VString "English:lorem.word#195135616";
             VString "English:lorem.word#195135616"].
Proof. vm_compute. split; reflexivity. Qed.

(** C4, counterexample.  A structured override whose generator spec is the
    empty string is passed over: the field [email] gets the heuristic's
    address, where the chain of the claim runs the interpreter on the spec
    and gets its fallback word. *)
Lemma empty_generator_spec_yields_heuristic :
  returned (Sample.run (generateFromAST StringKeyword Sample.emptySpecConfig "email")
              Sample.zeros)
  = Some (VString "English:internet.email#1103527590")
  /\ returned (Sample.run (precedence_chain_spec KString "email"
                             (Sample.emptySpecConfig !! "email")) Sample.zeros)
     = Some (VString "English:lorem.word#1103527590").
Proof. vm_compute. split; reflexivity. Qed.

(** An override wins over the heuristic: the field [name] configured with
    [internet.email] gets an address, not a person's name. *)
Example override_beats_heuristic :
  returned (Sample.run (generateFromAST StringKeyword Sample.nameConfig "user.name")
              Sample.zeros)
  = Some (VString "English:internet.email#1103527590")
  /\ returned (Sample.run (generateFromAST StringKeyword Sample.noConfig "user.name")
                 Sample.zeros)
     = Some (VString "English:person.fullName#1103527590").
Proof. vm_compute. split; reflexivity. Qed.

(** C5, counterexample.  The spec [helpers.arrayElement] has the shape,
    resolves to a callable member, carries no argument blob: the member is
    called with no argument, raises, and the interpreter raises with it. *)
Lemma interpreter_raises :
  method_shape "helpers.arrayElement" "helpers.arrayElement" None
  /\ thrown (Sample.run (executeFakerMethod "helpers.arrayElement") Sample.zeros)
     = Some (FakerError "Calling arrayElement without arguments.").
Proof.
  split; [|vm_compute; reflexivity].
  apply match_faker_path_shape. vm_compute. reflexivity.
Qed.

(** An argument the function refuses: [number.int(-5)] raises, is caught,
    and the call without argument returns. *)
Example refused_argument_retried :
  returned (Sample.run (executeFakerMethod "number.int(-5)") Sample.zeros)
  = Some (VInt 1103527590)
  /\ returned (Sample.run (executeFakerMethod "invalid.faker.method()") Sample.zeros)
     = Some (VString "English:lorem.word#1103527590").
Proof. vm_compute. split; reflexivity. Qed.

(** C6, counterexample.  The empty string is not a known locale code, and
    a call with it as locale returns an item: the guard on the option
    passes it over. *)
Lemma empty_locale_code_accepted :
  ("" ∉ map fst (@allLocales Sample.provider))
  /\ returned (Sample.run (generateSync StringKeyword Sample.noConfig
                             (mkOptions None None (Some (LocaleCode ""))))
                 Sample.zeros)
     = Some [VString "English:lorem.word#1103527590"].
Proof.
  split; [|vm_compute; reflexivity].
  simpl. rewrite !not_elem_of_cons. repeat split; try discriminate.
  apply not_elem_of_nil.
Qed.

Lemma unknown_locale_fails_witness :
  ("xx" ∉ map fst (@allLocales Sample.provider))
  /\ generateSync StringKeyword Sample.noConfig
       (mkOptions (Some 3%nat) (Some (SeedNumber 7)) (Some (LocaleCode "xx")))
       (Sample.world Sample.zeros)
     = Throw (Error "Locale 'xx' not found. Available locales: en, fr, de")
             (Sample.world Sample.zeros).
Proof.
  assert ("xx" ∉ map fst (@allLocales Sample.provider)) as H.
  { simpl. rewrite !not_elem_of_cons. repeat split; try discriminate.
    apply not_elem_of_nil. }
  split; [exact H|].
  refine (proj1 (unknown_locale_fails StringKeyword Sample.noConfig (Some 3%nat)
                   (Some (SeedNumber 7)) "xx" (Sample.world Sample.zeros) H)
            _ eq_refl).
  discriminate.
Defined.

(** C8, counterexample.  Two fields named by the empty string, one at the
    root and one under [a]: both paths end in the empty segment, the entry
    under the empty name is applied to the first (a person's name) and not
    to the second (a plain word), whose lookup key is its full path. *)
Lemma empty_segment_keys_on_full_path :
  last_segment (fieldPath "" "") = "" /\ last_segment (fieldPath "a" "") = ""
  /\ getFieldName (fieldPath "a" "") = "a."
  /\ returned (Sample.run (generateFromAST StringKeyword Sample.emptyNameConfig
                             (fieldPath "" "")) Sample.zeros)
     = Some (VString "English:person.fullName#1103527590")
  /\ returned (Sample.run (generateFromAST StringKeyword Sample.emptyNameConfig
                             (fieldPath "a" "")) Sample.zeros)
     = Some (VString "English:lorem.word#1103527590").
Proof. vm_compute. repeat split; reflexivity. Qed.

Lemma same_name_same_override_witness :
  last_segment "user.name" = "name"
  /\ last_segment "company.owner.name" = "name"
  /\ Sample.nameConfig !! getFieldName "user.name"
     = Sample.nameConfig !! getFieldName "company.owner.name"
  /\ generateFromAST StringKeyword Sample.nameConfig "user.name"
       (Sample.world Sample.zeros)
     = generateFromAST StringKeyword Sample.nameConfig "company.owner.name"
         (Sample.world Sample.zeros).
Proof.
  destruct (same_name_same_override Sample.nameConfig "user.name"
              "company.owner.name" "name" (Sample.world Sample.zeros)
              eq_refl eq_refl ltac:(discriminate)) as (H1 & H2 & H3 & _).
  split; [reflexivity|split; [reflexivity|split]].
  - now rewrite H1, H2.
  - exact (H3 KString).
Defined.

Lemma union_picks_member_witness :
  Sample.statusTypes <> []
  /\ exists member, member ∈ Sample.statusTypes
       /\ (member = Literal (VString "active")
           \/ exists w1 w2,
                generateFromAST member Sample.noConfig "status" w1
                = Ret (VString "active") w2).
Proof.
  split; [discriminate|].
  destruct (union_picks_member Sample.statusTypes Sample.noConfig "status"
              (Sample.world Sample.zeros) ltac:(discriminate)) as (_ & _ & _ & _ & H).
  apply (H (VString "active")
           (final (generateFromAST (Union Sample.statusTypes) Sample.noConfig "status"
                     (Sample.world Sample.zeros)))).
  apply returned_final. vm_compute. reflexivity.
Defined.
(** A field named [constructor] has no configured override and yet is not
    left to the heuristic and the default: the configuration inherits
    [Object] under that name, which is called as an override function; and
    under [valueOf] it inherits a function that refuses the call. *)
Example inherited_name_is_an_override :
  Sample.noConfig !! getFieldName "constructor" = None
  /\ returned (Sample.run (generateFromAST StringKeyword Sample.noConfig "constructor")
                 Sample.zeros)
     = Some (VString "[object Object]")
  /\ returned (Sample.run (precedence_chain KString "constructor" None) Sample.zeros)
     = Some (VString "English:lorem.word#1103527590")
  /\ thrown (Sample.run (generateFromAST BooleanKeyword Sample.noConfig "valueOf")
               Sample.zeros)
     = Some Sample.to_object_error.
Proof. split; [reflexivity|]. vm_compute. repeat split; reflexivity. Qed.

(** The spec [lorem.word.caller] has the shape; the read of [caller] on the
    function [lorem.word] raises, and the interpreter raises with it, no
    provider function having been called. *)
Example raising_read_is_not_caught :
  method_shape "lorem.word.caller" "lorem.word.caller" None
  /\ thrown (Sample.run (executeFakerMethod "lorem.word.caller") Sample.zeros)
     = Some Sample.strict_function_read.
Proof.
  split; [|vm_compute; reflexivity].
  apply match_faker_path_shape. vm_compute. reflexivity.
Qed.

(** The code [constructor] is not a known locale code and is not refused:
    the table of locales inherits a truthy value under that name, which
    becomes the locale data of a new provider. *)
Example inherited_locale_is_not_refused :
  ("constructor" ∉ map fst (@allLocales Sample.provider))
  /\ returned (Sample.run (generateSync StringKeyword Sample.noConfig
                             (mkOptions None None (Some (LocaleCode "constructor"))))
                 Sample.zeros)
     = Some [VString "Object.prototype.constructor:lorem.word#12345"].
Proof.
  split; [|vm_compute; reflexivity].
  simpl. rewrite !not_elem_of_cons. repeat split; try discriminate.
  apply not_elem_of_nil.
Qed.
End Evaluations.

(** * Further properties of the code *)

(** ** The registry *)

Section RegistryProperties.
Context {F : Type}.

Lemma Map_set_assoc_eq (m : list (string * F)) (name : string) (fn : F) :
  assoc name (Registry.Map_set m name fn) = Some fn.
Proof.
  induction m as [|[k x] m IH]; simpl.
  - now rewrite String.eqb_refl.
  - destruct (String.eqb k name) eqn:E; simpl; now rewrite E.
Qed.

Lemma Map_set_assoc_ne (m : list (string * F)) (name other : string) (fn : F) :
  other <> name ->
  assoc other (Registry.Map_set m name fn) = assoc other m.
Proof.
  intros Hne. induction m as [|[k x] m IH]; simpl.
  - destruct (String.eqb_spec name other); [congruence|reflexivity].
  - destruct (String.eqb_spec k name) as [->|Hk]; simpl.
    + destruct (String.eqb_spec name other); [congruence|reflexivity].
    + now rewrite IH.
Qed.

Lemma has_elem_of (name : string) (m : list (string * F)) :
  Registry.has name m = true <-> name ∈ map fst m.
Proof.
  unfold Registry.has. induction m as [|[k x] m IH]; simpl.
  - split; [discriminate|]. intros H. inversion H.
  - rewrite orb_true_iff, IH, elem_of_cons.
    destruct (String.eqb_spec k name); split; intros [H|H]; auto; congruence.
Qed.

Lemma assoc_is_Some (name : string) (m : list (string * F)) :
  is_Some (assoc name m) <-> name ∈ map fst m.
Proof.
  split.
  - intros [x Hx]. eapply assoc_Some, Hx.
  - intros H. destruct (assoc name m) eqn:E; [eauto|].
    induction m as [|[k x] m IH]; [inversion H|].
    simpl in *. destruct (String.eqb_spec k name) as [->|Hk]; [discriminate|].
    apply elem_of_cons in H as [H|H]; [congruence|]. now apply IH.
Qed.

Lemma Map_set_keys (m : list (string * F)) (name : string) (fn : F) :
  map fst (Registry.Map_set m name fn)
  = if Registry.has name m then map fst m else map fst m ++ [name].
Proof.
  unfold Registry.has. induction m as [|[k x] m IH]; simpl.
  - reflexivity.
  - destruct (String.eqb k name) eqn:E; simpl; [reflexivity|].
    rewrite IH. now destruct (existsb _ m).
Qed.

Lemma after_snoc (calls : list (string * F)) (call : string * F) :
  Registry.after (calls ++ [call])
  = Registry.register (fst call) (snd call) (Registry.after calls).
Proof. unfold Registry.after. now rewrite fold_left_app. Qed.

Lemma after_keys_NoDup (calls : list (string * F)) :
  NoDup (Registry.list (Registry.after calls)).
Proof.
  unfold Registry.list.
  induction calls as [|call calls IH] using rev_ind.
  - constructor.
  - rewrite after_snoc. unfold Registry.register. rewrite Map_set_keys.
    destruct (Registry.has (fst call) (Registry.after calls)) eqn:E; [exact IH|].
    apply NoDup_app. split; [exact IH|]. split.
    + intros x Hx Hin. apply list_elem_of_singleton in Hin as ->.
      apply has_elem_of in Hx. congruence.
    + apply NoDup_singleton.
Qed.

(** Register, then get: the function registered last under a name is the one
    [get] returns, and registering under one name changes nothing for any
    other. *)
Theorem registry_register_get (customFakers : list (string * F))
    (name other : string) (first second : F) :
  Registry.get name (Registry.register name first customFakers) = Some first
  /\ Registry.get name
       (Registry.register name second (Registry.register name first customFakers))
     = Some second
  /\ (other <> name ->
      Registry.get other (Registry.register name first customFakers)
      = Registry.get other customFakers)
  /\ Registry.get name (@Registry.empty F) = None.
Proof.
  unfold Registry.get, Registry.register. repeat split.
  - apply Map_set_assoc_eq.
  - apply Map_set_assoc_eq.
  - apply Map_set_assoc_ne.
Qed.

(** [has], [get] and [list] agree: a name is reported by [has] exactly when
    [get] finds a function for it, exactly when [list] shows it; after
    [register] the name is there, and no other name appears or goes. *)
Theorem registry_has_get_list (customFakers : list (string * F))
    (name other : string) (fn : F) :
  (Registry.has name customFakers = true <-> is_Some (Registry.get name customFakers))
  /\ (Registry.has name customFakers = true <-> name ∈ Registry.list customFakers)
  /\ Registry.has name (Registry.register name fn customFakers) = true
  /\ (other <> name ->
      Registry.has other (Registry.register name fn customFakers)
      = Registry.has other customFakers).
Proof.
  unfold Registry.get, Registry.list, Registry.register. split; [|split; [|split]].
  - now rewrite has_elem_of, assoc_is_Some.
  - apply has_elem_of.
  - apply has_elem_of, assoc_is_Some. rewrite Map_set_assoc_eq. eauto.
  - intros Hne.
    destruct (Registry.has other (Registry.Map_set customFakers name fn)) eqn:E1,
             (Registry.has other customFakers) eqn:E2; try reflexivity.
    + apply has_elem_of, assoc_is_Some in E1.
      rewrite Map_set_assoc_ne in E1 by exact Hne.
      apply assoc_is_Some, has_elem_of in E1. congruence.
    + apply has_elem_of, assoc_is_Some in E2.
      rewrite <- (Map_set_assoc_ne customFakers name other fn Hne) in E2.
      apply assoc_is_Some, has_elem_of in E2. congruence.
Qed.

(** [list] keeps the order of first registration and never repeats a name:
    registering a name that is there leaves the list as it is, a new name is
    added at its end; so after any sequence of [register] calls on a new
    registry the list has no duplicate and holds exactly the names that were
    registered. *)
Theorem registry_list_order (customFakers : list (string * F)) (name : string) (fn : F)
    (calls : list (string * F)) :
  Registry.list (Registry.register name fn customFakers)
  = (if Registry.has name customFakers then Registry.list customFakers
     else Registry.list customFakers ++ [name])
  /\ NoDup (Registry.list (Registry.after calls))
  /\ (forall registered, registered ∈ Registry.list (Registry.after calls)
                         <-> registered ∈ map fst calls)
  /\ (length (Registry.list (Registry.after calls)) <= length calls)%nat.
Proof.
  split; [apply Map_set_keys|]. split; [apply after_keys_NoDup|].
  assert (forall registered, registered ∈ Registry.list (Registry.after calls)
                             <-> registered ∈ map fst calls) as Hmem.
  { unfold Registry.list. induction calls as [|call calls IH] using rev_ind.
    - reflexivity.
    - intros registered. rewrite after_snoc, map_app. unfold Registry.register.
      rewrite Map_set_keys, elem_of_app. simpl. rewrite list_elem_of_singleton.
      destruct (Registry.has (fst call) (Registry.after calls)) eqn:E.
      + rewrite IH. split; [auto|]. intros [H| ->]; [exact H|].
        apply IH. now apply has_elem_of.
      + rewrite elem_of_app, list_elem_of_singleton, IH. reflexivity. }
  split; [exact Hmem|].
  clear Hmem. unfold Registry.list.
  induction calls as [|call calls IH] using rev_ind; [simpl; lia|].
  rewrite after_snoc. unfold Registry.register.
  rewrite Map_set_keys, length_app. simpl.
  destruct (Registry.has _ _); [lia|]. rewrite length_app. simpl. lia.
Qed.
End RegistryProperties.

(** ** Method specs, seeds and configuration keys *)

Lemma match_faker_path_empty_parentheses (p : string) :
  all_chars is_path_char p = true -> match_faker_path (p +:+ "()") = None.
Proof.
  intros Hp. unfold match_faker_path.
  rewrite (span_path_intro p "()" Hp) by reflexivity.
  now destruct (String.eqb p "").
Qed.

Lemma char_codes_app (a b : string) :
  char_codes (a +:+ b) = char_codes a ++ char_codes b.
Proof.
  induction a as [|c a IH]; [reflexivity|].
  rewrite append_cons. simpl. now rewrite IH.
Qed.

Lemma hash_codes_app (a b : list Z) :
  hash_codes (a ++ b) = fold_left hash_step b (hash_codes a).
Proof. unfold hash_codes. apply fold_left_app. Qed.

(** [Aa] and [BB] move the hash alike, from every value. *)
Lemma hash_step_Aa_BB (hash : Z) :
  hash_step (hash_step hash 65) 97 = hash_step (hash_step hash 66) 66.
Proof.
  rewrite !hash_step_31.
  destruct (ToInt32_quotient (hash * 31 + 65)) as [k ->].
  destruct (ToInt32_quotient (hash * 31 + 66)) as [j ->].
  replace ((hash * 31 + 65 + k * 2 ^ 32) * 31 + 97)
    with (hash * 961 + 2112 + (k * 31) * 2 ^ 32) by ring.
  replace ((hash * 31 + 66 + j * 2 ^ 32) * 31 + 66)
    with (hash * 961 + 2112 + (j * 31) * 2 ^ 32) by ring.
  now rewrite !ToInt32_shift.
Qed.

Lemma fold_left_two {A B} (f : A -> B -> A) (a : A) (x y : B) (rest : list B) :
  fold_left f (x :: y :: rest) a = fold_left f rest (f (f a x) y).
Proof. reflexivity. Qed.

Lemma char_codes_Aa_BB :
  char_codes "Aa" = [65; 97] /\ char_codes "BB" = [66; 66].
Proof. split; reflexivity. Qed.

Lemma seedValue_Aa_BB (p s : string) :
  seedValue (SeedString (p +:+ "Aa" +:+ s)) = seedValue (SeedString (p +:+ "BB" +:+ s)).
Proof.
  unfold seedValue. f_equal.
  rewrite !char_codes_app, !hash_codes_app.
  destruct char_codes_Aa_BB as [-> ->].
  rewrite !fold_left_app, !fold_left_two. f_equal. f_equal. apply hash_step_Aa_BB.
Qed.

Lemma split_dot_segments (s : string) :
  Forall (fun seg => all_chars (fun c => negb (Ascii.eqb c ".")) seg = true) (split_dot s).
Proof.
  induction s as [|c s IH]; simpl.
  - now constructor.
  - destruct (Ascii.eqb c ".") eqn:Hc.
    + now constructor.
    + destruct (split_dot s) as [|seg segs].
      * constructor; [|constructor]. simpl. now rewrite Hc.
      * inversion IH as [|? ? Hseg Hsegs]; subst.
        constructor; [|exact Hsegs]. simpl. now rewrite Hc.
Qed.

Lemma last_segment_dot_free (path : string) :
  all_chars (fun c => negb (Ascii.eqb c ".")) (last_segment path) = true.
Proof.
  unfold last_segment. pose proof (split_dot_segments path) as H.
  destruct (last (split_dot path)) as [seg|] eqn:E; [|reflexivity].
  apply last_Some in E as [l' E]. rewrite E in H.
  apply Forall_app in H as [_ H]. now inversion H.
Qed.

Lemma getFieldName_cases (path : string) :
  (getFieldName path = last_segment path /\ last_segment path <> "")
  \/ (getFieldName path = path /\ last_segment path = "").
Proof.
  unfold getFieldName, last_segment.
  destruct (last (split_dot path)) as [name|]; simpl; [|now right].
  destruct (String.eqb_spec name ""); [now right|now left].
Qed.

Section SpecAndKeyProperties.
Context {P : Provider} {R : Runtime}.

Lemma setupSeed_by_value (s1 s2 : Seed) :
  seedValue s1 = seedValue s2 -> setupSeed s1 = setupSeed s2.
Proof. intros H. unfold setupSeed. now rewrite H. Qed.

(** A primitive generator reads the configuration through one entry. *)
Lemma primitive_by_entry (kind : PrimitiveKind) (config config' : gmap string Override)
    (path : string) (w : World) :
  config !! getFieldName path = config' !! getFieldName path ->
  generateFromAST (primitive_node kind) config path w
  = generateFromAST (primitive_node kind) config' path w.
Proof. intros H. destruct kind; simpl; unfold config_read; now rewrite H. Qed.

(** A method spec written with empty parentheses, [person.firstName()] as
    the README and the tests have it, does not match the pattern (the
    parentheses must hold at least one character): the interpreter returns
    the fallback word without looking the name up, and a primitive field
    configured with such a spec gets that word, coerced to its kind. *)
Theorem empty_parentheses_fall_back (p : string) (config : gmap string Override)
    (path : string) (w : World) :
  all_chars is_path_char p = true ->
  executeFakerMethod (p +:+ "()") w = lorem_word w
  /\ (forall kind,
        config !! getFieldName path = Some (OvString (p +:+ "()")) ->
        generateFromAST (primitive_node kind) config path w
        = (v <- lorem_word ;; ret (coerce kind v)) w).
Proof.
  intros Hp.
  assert (forall w0, executeFakerMethod (p +:+ "()") w0 = lorem_word w0) as Hword.
  { intros w0. unfold executeFakerMethod.
    now rewrite (match_faker_path_empty_parentheses p Hp). }
  split; [apply Hword|].
  intros kind Hov. rewrite primitive_chain, (config_read_own _ _ _ Hov).
  unfold precedence_chain. simpl.
  unfold bind. now rewrite Hword.
Qed.

(** The integer derived from a string seed lies between 0 and 2^31, both
    included: the hash is a signed 32-bit integer and [Math.abs] maps
    [-2^31] to [2^31]. *)
Theorem string_seed_range (s : string) :
  0 <= seedValue (SeedString s) <= 2 ^ 31
  /\ - 2 ^ 31 <= hash_codes (char_codes s) < 2 ^ 31.
Proof.
  pose proof (hash_codes_range (char_codes s)) as H. simpl. split; [lia|exact H].
Qed.

(** A call depends on a truthy seed through the derived integer only, and
    different strings derive the same integer: replacing [Aa] by [BB]
    anywhere in a string seed changes nothing, the two calls are the same in
    every state. *)
Theorem colliding_seeds_same_call (p s : string) (schema : AST)
    (config : gmap string Override) (cnt : option nat) (loc : option LocaleOption)
    (w : World) :
  seedValue (SeedString (p +:+ "Aa" +:+ s)) = seedValue (SeedString (p +:+ "BB" +:+ s))
  /\ generateSync schema config (mkOptions cnt (Some (SeedString (p +:+ "Aa" +:+ s))) loc) w
     = generateSync schema config (mkOptions cnt (Some (SeedString (p +:+ "BB" +:+ s))) loc) w
  /\ (forall s1 s2, seed_truthy s1 = true -> seed_truthy s2 = true ->
        seedValue s1 = seedValue s2 ->
        generateSync schema config (mkOptions cnt (Some s1) loc) w
        = generateSync schema config (mkOptions cnt (Some s2) loc) w).
Proof.
  assert (forall s1 s2, seed_truthy s1 = true -> seed_truthy s2 = true ->
            seedValue s1 = seedValue s2 ->
            generateSync schema config (mkOptions cnt (Some s1) loc) w
            = generateSync schema config (mkOptions cnt (Some s2) loc) w) as Hsame.
  { intros s1 s2 H1 H2 Hv. unfold generateSync. simpl.
    now rewrite H1, H2, (setupSeed_by_value s1 s2 Hv). }
  split; [apply seedValue_Aa_BB|]. split; [|exact Hsame].
  apply Hsame; [| |apply seedValue_Aa_BB].
  - simpl. now destruct p.
  - simpl. now destruct p.
Qed.

(** A configuration key that holds a dot and does not end in one is never
    looked up: no path has it as field name, so an entry under a full path
    such as [user.name] changes nothing for any primitive field. *)
Theorem dotted_key_never_read (key : string) (override : Override) (path : string)
    (w : World) :
  all_chars (fun c => negb (Ascii.eqb c ".")) key = false ->
  last_segment key <> "" ->
  getFieldName path <> key
  /\ (forall kind,
        generateFromAST (primitive_node kind) {[ key := override ]} path w
        = generateFromAST (primitive_node kind) ∅ path w).
Proof.
  intros Hdot Hlast.
  assert (getFieldName path <> key) as Hne.
  { intros E. destruct (getFieldName_cases path) as [[E1 _]|[E1 E2]].
    - rewrite E1 in E. subst key.
      rewrite last_segment_dot_free in Hdot. discriminate.
    - rewrite E1 in E. subst key. contradiction. }
  split; [exact Hne|].
  intros kind. apply primitive_by_entry.
  rewrite lookup_empty. apply lookup_singleton_ne. congruence.
Qed.

(** Whatever a function override, a method-spec string or a structured
    override with a generator spec yields, the value generated for the field
    has the kind of its node: a string for a string field, a number for a
    number field, a boolean for a boolean field. *)
Theorem override_result_of_kind (kind : PrimitiveKind) (config : gmap string Override)
    (path : string) (override : Override) (run : Eff Value) (w w' : World) (v : Value) :
  config !! getFieldName path = Some override ->
  override_result override = Some run ->
  generateFromAST (primitive_node kind) config path w = Ret v w' ->
  of_kind kind v.
Proof.
  intros Hov Hrun. rewrite primitive_chain, (config_read_own _ _ _ Hov).
  unfold precedence_chain. simpl.
  rewrite Hrun. unfold bind, ret. destruct (run w) as [x w1|e w1]; [|discriminate].
  intros [= <- _]. destruct kind; simpl; eauto.
Qed.
End SpecAndKeyProperties.

(** ** Locale switches and the stored seed *)

Lemma insert_snoc {A} (l : list A) (x y : A) : <[length l := x]> (l ++ [y]) = l ++ [x].
Proof. induction l as [|a l IH]; simpl; [reflexivity|]. now rewrite IH. Qed.

Section LocaleProperties.
Context {P : Provider} {R : Runtime}.

(** A listed code reads as its own entry. *)
Lemma locale_definition_own (code : string) (d : LocaleDefinition) :
  assoc code allLocales = Some d -> locale_definition code = Some d.
Proof. intros H. unfold locale_definition. now rewrite H. Qed.

Lemma setupLocale_new (locale : LocaleOption) (d : LocaleDefinition) (w : World) :
  (locale = LocaleObject d
   \/ exists code, locale = LocaleCode code /\ locale_definition code = Some d) ->
  setupLocale locale w
  = Ret tt (mkWorld (heap w ++ [mkFaker d (reapplied (currentSeed w)
                                            (fresh_randomizer (mathRandom w (drawn w))))])
                    (mathRandom w) (S (drawn w)) (length (heap w)) (currentSeed w)).
Proof.
  intros H.
  assert (setupLocale locale w
          = (_ <- (a <- new_Faker d ;; assign_currentFaker a) ;; reapply_seed) w) as ->.
  { destruct H as [->|(code & -> & E)]; unfold setupLocale; [reflexivity|].
    now rewrite E. }
  unfold bind, new_Faker, Math_random, assign_currentFaker, reapply_seed, bind. simpl.
  destruct (currentSeed w) as [s|] eqn:Hs; simpl; [|reflexivity].
  unfold faker_seed, instance_seed. simpl.
  rewrite list_lookup_middle by reflexivity. simpl.
  unfold set_heap. simpl. now rewrite insert_snoc.
Qed.

Lemma setupLocale_instance (a : nat) (f : FakerInstance) (w : World) :
  heap w !! a = Some f ->
  setupLocale (LocaleFaker a) w
  = Ret tt (mkWorld (match currentSeed w with
                     | Some s => <[a := mkFaker (definitions f) (seeded_randomizer [s])]>
                                   (heap w)
                     | None => heap w
                     end)
                    (mathRandom w) (drawn w) a (currentSeed w)).
Proof.
  intros H. unfold setupLocale, bind, assign_currentFaker, reapply_seed.
  unfold set_currentFaker. simpl.
  destruct (currentSeed w) as [s|]; [|reflexivity].
  unfold faker_seed, instance_seed. simpl. now rewrite H.
Qed.

(** Every code [getAvailableLocales] lists is accepted: the switch to it
    returns; it makes one new provider with the locale data of the code
    and makes it current, leaving the providers that were there as they
    were; the new provider has the randomizer of the stored seed when a seed
    is stored, else one taken from [Math.random]; the stored seed stays. *)
Theorem listed_locale_is_accepted (code : string) (w : World) :
  code ∈ getAvailableLocales ->
  exists d,
    locale_definition code = Some d
    /\ setupLocale (LocaleCode code) w
       = Ret tt (mkWorld
                   (heap w ++ [mkFaker d (reapplied (currentSeed w)
                                            (fresh_randomizer (mathRandom w (drawn w))))])
                   (mathRandom w) (S (drawn w)) (length (heap w)) (currentSeed w)).
Proof.
  intros Hin. apply assoc_is_Some in Hin as [d Hd].
  apply locale_definition_own in Hd. exists d. split; [exact Hd|].
  apply setupLocale_new. right. eauto.
Qed.

(** A provider instance given as locale is taken by reference: it becomes
    the current provider, no provider is made and nothing is drawn; when a
    seed is stored the caller's instance is reseeded in place.  Given an
    instance that is not there while a seed is stored, the switch throws. *)
Theorem instance_locale_is_shared (a : nat) (w : World) :
  (forall f, heap w !! a = Some f ->
     setupLocale (LocaleFaker a) w
     = Ret tt (mkWorld (match currentSeed w with
                        | Some s => <[a := mkFaker (definitions f) (seeded_randomizer [s])]>
                                      (heap w)
                        | None => heap w
                        end)
                       (mathRandom w) (drawn w) a (currentSeed w)))
  /\ (forall s, heap w !! a = None -> currentSeed w = Some s ->
        thrown (setupLocale (LocaleFaker a) w) = Some undefined_read).
Proof.
  split; [intros f; apply setupLocale_instance|].
  intros s Hnone Hs. unfold setupLocale, bind, assign_currentFaker, reapply_seed. simpl.
  rewrite Hs. unfold faker_seed, instance_seed. simpl. now rewrite Hnone.
Qed.

(** With a seed stored and no seed option, the setup steps under a truthy
    locale option leave current a provider with the locale data
    [locale_after] names and the randomizer of the stored seed. *)
Lemma setup_steps_stored_seed (cnt : option nat) (locale : LocaleOption) (s : Z)
    (w : World) :
  locale_truthy locale = true ->
  currentSeed w = Some s ->
  match locale_after (Some locale) w with
  | Some d =>
      exists w',
        setup_steps (mkOptions cnt None (Some locale)) w = Ret tt w'
        /\ heap w' !! currentFaker w' = Some (mkFaker d (seeded_randomizer [s]))
  | None =>
      exists w',
        setup_steps (mkOptions cnt None (Some locale)) w
        = Throw (setup_error (Some locale)) w'
  end.
Proof.
  intros Htruthy Hs. unfold setup_steps. simpl. rewrite Htruthy.
  assert (forall d, (locale = LocaleObject d
                     \/ exists code, locale = LocaleCode code
                                     /\ locale_definition code = Some d) ->
            exists w', (_ <- setupLocale locale ;; ret tt) w = Ret tt w'
              /\ heap w' !! currentFaker w' = Some (mkFaker d (seeded_randomizer [s])))
    as Hnew.
  { intros d Hd. unfold bind. rewrite (setupLocale_new locale d w Hd), Hs.
    eexists. split; [reflexivity|]. simpl. now apply list_lookup_middle. }
  destruct locale as [code|d|a]; simpl in *.
  - destruct (String.eqb code ""); [discriminate|].
    destruct (locale_definition code) as [d|] eqn:E.
    + apply Hnew. right. eauto.
    + unfold bind, setupLocale, locale_definition in *. rewrite E. simpl. eauto.
  - apply Hnew. now left.
  - destruct (heap w !! a) as [f|] eqn:E; simpl.
    + unfold bind. rewrite (setupLocale_instance a f w E), Hs.
      eexists. split; [reflexivity|]. simpl.
      apply list_lookup_insert_eq. eapply lookup_lt_Some, E.
    + unfold bind, setupLocale, assign_currentFaker, reapply_seed, bind. simpl.
      rewrite Hs. unfold faker_seed, instance_seed. simpl. rewrite E. eauto.
Qed.

(** The stored seed outlives a locale switch: once a seed is stored (by
    [seed] on the facade, [setSeed], or an earlier call with a seed
    option), two calls that give a truthy locale option and no seed return
    the same sequence, or throw the same error, from whatever two states
    that store the same seed; for a schema without unions and a
    configuration whose functions depend on nothing but the current
    provider, and, where the locale is a provider instance of the caller,
    provided it carries the same locale data at both calls. *)
Theorem stored_seed_survives_locale_switch (schema : AST) (config : gmap string Override)
    (cnt : option nat) (locale : LocaleOption) (s : Z) (w1 w2 : World) :
  union_free schema = true ->
  deterministic_config config ->
  locale_truthy locale = true ->
  currentSeed w1 = Some s -> currentSeed w2 = Some s ->
  locale_after (Some locale) w1 = locale_after (Some locale) w2 ->
  same_result (generateSync schema config (mkOptions cnt None (Some locale)) w1)
              (generateSync schema config (mkOptions cnt None (Some locale)) w2).
Proof.
  intros Hfree Hconfig Htruthy Hs1 Hs2 Hlocale.
  pose proof (setup_steps_stored_seed cnt locale s w1 Htruthy Hs1) as H1.
  pose proof (setup_steps_stored_seed cnt locale s w2 Htruthy Hs2) as H2.
  rewrite <- Hlocale in H2.
  pose proof (generate_loop_provider_only schema config (default 1%nat cnt) []
                (generateFromAST_provider_only config schema Hconfig Hfree "")) as Hloop.
  rewrite !generateSync_steps. simpl count.
  destruct (locale_after (Some locale) w1) as [d|].
  - destruct H1 as (w1' & -> & P1), H2 as (w2' & -> & P2).
    assert (same_provider w1' w2') as Hsame by (red; congruence).
    specialize (Hloop w1' w2' Hsame).
    destruct (generate_loop schema config (default 1%nat cnt) [] w1'),
             (generate_loop schema config (default 1%nat cnt) [] w2'); simpl in Hloop;
      try contradiction; destruct Hloop as [-> _]; now split.
  - destruct H1 as (w1' & ->), H2 as (w2' & ->). now split.
Qed.
End LocaleProperties.

(** ** The footprint of generation *)

Section FootprintProperties.
Context {P : Provider} {R : Runtime}.

Lemma footprint_refl (w : World) : footprint w w.
Proof. repeat split; auto. Qed.

Lemma footprint_trans (w1 w2 w3 : World) :
  footprint w1 w2 -> footprint w2 w3 -> footprint w1 w3.
Proof.
  intros (C1 & S1 & L1 & O1 & D1 & M1 & N1) (C2 & S2 & L2 & O2 & D2 & M2 & N2).
  rewrite C1 in *. repeat split; try congruence; try lia.
  intros a Ha. rewrite O2, O1; auto.
Qed.

Lemma contained_ret {A} (a : A) : contained (ret a).
Proof. intros w. apply footprint_refl. Qed.

Lemma contained_throw {A} (e : JsError) : contained (@throw World A e).
Proof. intros w. apply footprint_refl. Qed.

Lemma contained_bind {A B} (m : Eff A) (k : A -> Eff B) :
  contained m -> (forall a, contained (k a)) -> contained (bind m k).
Proof.
  intros Hm Hk w. unfold bind. specialize (Hm w).
  destruct (m w) as [a w1|e w1]; simpl in *; [|exact Hm].
  eapply footprint_trans; [exact Hm|apply Hk].
Qed.

Lemma contained_try_catch {A} (m h : Eff A) :
  contained m -> contained h -> contained (try_catch m h).
Proof.
  intros Hm Hh w. unfold try_catch. specialize (Hm w).
  destruct (m w) as [a w1|e w1]; simpl in *; [exact Hm|].
  eapply footprint_trans; [exact Hm|apply Hh].
Qed.

Lemma Math_random_contained : contained Math_random.
Proof. intros w. unfold Math_random. simpl. repeat split; simpl; auto; lia. Qed.

Lemma call_member_contained (fn : Member) (args : list Value) :
  contained (call_member fn args).
Proof.
  intros w. unfold call_member.
  destruct (heap w !! currentFaker w) as [f|] eqn:E; [|apply footprint_refl].
  assert (forall r, footprint w (set_heap w (<[currentFaker w :=
                                      mkFaker (definitions f) r]> (heap w)))) as H.
  { intros r. repeat split; simpl; auto.
    - apply length_insert.
    - intros a Ha. now apply list_lookup_insert_ne.
    - now rewrite (lookup_current_insert w f _ E), E. }
  destruct (member_call fn args (definitions f) (randomizer f)); apply H.
Qed.

Lemma read_path_contained (pathParts : list string) :
  contained (read_path pathParts).
Proof.
  intros w. unfold read_path.
  destruct (heap w !! currentFaker w) as [f|]; [|apply footprint_refl].
  destruct (walk (definitions f) faker_object pathParts); apply footprint_refl.
Qed.

Lemma faker_call_contained (path : list string) (args : list Value) :
  contained (faker_call path args).
Proof.
  unfold faker_call. apply contained_bind; [apply read_path_contained|].
  intros [fn|].
  - destruct (member_callable fn).
    + apply call_member_contained.
    + apply contained_throw.
  - apply contained_throw.
Qed.

Lemma executeFakerMethod_contained (fakerPath : string) :
  contained (executeFakerMethod fakerPath).
Proof.
  unfold executeFakerMethod, lorem_word.
  destruct (match_faker_path fakerPath) as [[path blob]|];
    [|apply faker_call_contained].
  apply contained_bind; [apply read_path_contained|].
  intros [fn|]; [|apply faker_call_contained].
  destruct (member_callable fn); simpl; [|apply faker_call_contained].
  destruct blob as [argsStr|]; [|apply call_member_contained].
  apply contained_try_catch; [|apply call_member_contained].
  destruct (JSON_parse argsStr);
    [apply call_member_contained|apply contained_throw].
Qed.

Lemma config_read_contained (config : gmap string Override) (name : string)
    (override : Override) :
  contained_config config ->
  config_read config name = Some override -> contained_override override.
Proof.
  intros Hconfig. unfold config_read.
  destruct (config !! name) as [own|] eqn:Hown.
  - intros [= <-]. eapply Hconfig, Hown.
  - destruct (Object_prototype name) as [[[v|e]|]|]; simpl; intros [= <-]; simpl.
    + apply contained_ret.
    + apply contained_throw.
    + exact I.
Qed.

Lemma override_then_smart_contained (coerced : Value -> Value) (smart : Eff Value)
    (fieldConfig : option Override) :
  contained smart ->
  (forall override, fieldConfig = Some override -> contained_override override) ->
  contained
    (match fieldConfig with
     | Some (OvFunction fn) => v <- fn ;; ret (coerced v)
     | Some (OvString spec) => v <- executeFakerMethod spec ;; ret (coerced v)
     | Some (OvConfig fieldConfig) =>
         match faker_spec fieldConfig with
         | Some spec =>
             result <- executeFakerMethod spec ;;
             v <- apply_transform fieldConfig result ;;
             ret (coerced v)
         | None => smart
         end
     | Some OvUndefined | None => smart
     end).
Proof.
  intros Hsmart Hov. destruct fieldConfig as [[fn|spec|fieldConfig| ]|];
    [| | |exact Hsmart|exact Hsmart].
  - apply contained_bind; [apply (Hov _ eq_refl)|intros; apply contained_ret].
  - apply contained_bind;
      [apply executeFakerMethod_contained|intros; apply contained_ret].
  - destruct (faker_spec fieldConfig); [|exact Hsmart].
    apply contained_bind; [apply executeFakerMethod_contained|intros result].
    apply contained_bind; [|intros; apply contained_ret].
    specialize (Hov _ eq_refl). simpl in Hov. unfold apply_transform.
    destruct (transform fieldConfig); [apply Hov|apply contained_ret].
Qed.

Ltac smart_contained :=
  cbv zeta;
  repeat match goal with
         | |- contained (if ?b then _ else _) => destruct b
         end;
  apply faker_call_contained.

Lemma generateObject_loop_contained (rec : AST -> string -> Eff Value)
    (basePath : string) (props : list (string * AST)) (result : list (string * Value)) :
  Forall (fun prop => forall path, contained (rec (snd prop) path)) props ->
  contained (generateObject_loop rec basePath props result).
Proof.
  intros H. revert result. induction H as [|[fieldName type] props Hhead _ IH];
    intros result; simpl.
  - apply contained_ret.
  - apply contained_bind; [apply Hhead|intros v; apply IH].
Qed.

Lemma generateTuple_map_contained (rec : AST -> string -> Eff Value)
    (path : string) (elements : list AST) (index : nat) :
  Forall (fun element => forall path, contained (rec element path)) elements ->
  contained (generateTuple_map rec path elements index).
Proof.
  intros H. revert index. induction H as [|element elements Hhead _ IH];
    intros index; simpl.
  - apply contained_ret.
  - apply contained_bind; [apply Hhead|intros v].
    apply contained_bind; [apply IH|intros vs; apply contained_ret].
Qed.

Lemma generateUnionAt_contained (rec : AST -> string -> Eff Value)
    (path : string) (types : list AST) (index : nat) :
  Forall (fun type => forall path, contained (rec type path)) types ->
  contained (generateUnionAt rec path types index).
Proof.
  intros H. revert index. induction H as [|type types Hhead _ IH];
    intros index; simpl.
  - apply contained_throw.
  - destruct index as [|index]; [|apply IH].
    destruct type; try apply Hhead. apply contained_ret.
Qed.

(** Whatever the schema, with overrides that stay within the footprint the
    evaluation of a node does too. *)
Lemma generateFromAST_contained (config : gmap string Override) (ast : AST) :
  contained_config config ->
  forall path, contained (generateFromAST ast config path).
Proof.
  intros Hconfig. induction ast as
    [ | | |props IH|types IH|elements IH|from IH|from IH|identifier parameters IH
    |literal|tag] using AST_nested_ind; intros path.
  - unfold generateFromAST, generateString.
    apply (override_then_smart_contained (fun v => VString (ToString v)));
      [unfold lorem_word; smart_contained|].
    intros ov Hov. eapply config_read_contained; eassumption.
  - unfold generateFromAST, generateNumber.
    apply (override_then_smart_contained (fun v => VNumber (ToNumber v)));
      [smart_contained|].
    intros ov Hov. eapply config_read_contained; eassumption.
  - unfold generateFromAST, generateBoolean.
    apply (override_then_smart_contained (fun v => VBool (ToBoolean v)));
      [apply faker_call_contained|].
    intros ov Hov. eapply config_read_contained; eassumption.
  - apply generateObject_loop_contained, IH.
  - apply contained_bind; [apply Math_random_contained|intros k].
    apply generateUnionAt_contained, IH.
  - apply contained_bind; [|intros; apply contained_ret].
    apply generateTuple_map_contained, IH.
  - apply IH.
  - apply IH.
  - rewrite generateFromAST_Declaration.
    destruct parameters as [|parameter parameters]; [apply faker_call_contained|].
    inversion IH as [|? ? Hhead _]; subst. apply Hhead.
  - apply faker_call_contained.
  - apply faker_call_contained.
Qed.

Lemma generate_loop_contained (schema : AST) (config : gmap string Override)
    (n : nat) (results : list Value) :
  contained_config config ->
  contained (generate_loop schema config n results).
Proof.
  intros H. revert results. induction n as [|n IH]; intros results; simpl.
  - apply contained_ret.
  - apply contained_bind; [now apply generateFromAST_contained|intros item; apply IH].
Qed.

Lemma setupSeed_spares (sd : Seed) (w : World) :
  currentFaker (final (setupSeed sd w)) = currentFaker w
  /\ forall a, a <> currentFaker w -> heap (final (setupSeed sd w)) !! a = heap w !! a.
Proof.
  unfold setupSeed, bind, assign_currentSeed, faker_seed, instance_seed. simpl.
  destruct (heap w !! currentFaker w); simpl; split; auto.
  intros a Ha. now apply list_lookup_insert_ne.
Qed.

(** Generation keeps to the current provider: with overrides that do, a
    call leaves the current-provider reference, the stored seed and the
    sequence of [Math.random] as they were and changes no provider but the
    current one, of which it keeps the locale data; this for every schema,
    unions included, and however the call ends. *)
Theorem generation_keeps_to_current_provider (schema : AST)
    (config : gmap string Override) (cnt : option nat) (w : World) :
  contained_config config ->
  footprint w (final (generateSync schema config (mkOptions cnt None None) w)).
Proof.
  intros Hconfig. rewrite generateSync_steps. simpl.
  apply (generate_loop_contained schema config (default 1%nat cnt) [] Hconfig w).
Qed.

(** With overrides that keep to the current provider, a call under a
    listed locale code works on a provider of its own: every provider that
    existed before the call, the module-level [faker] among them, is after
    the call exactly as it was, whatever the seed option, the count and the
    schema, and however the call ends. *)
Theorem locale_code_spares_existing_providers (schema : AST)
    (config : gmap string Override) (cnt : option nat) (sd : option Seed)
    (code : string) (w : World) (a : nat) (f : FakerInstance) :
  contained_config config ->
  code <> "" -> code ∈ getAvailableLocales ->
  heap w !! a = Some f ->
  heap (final (generateSync schema config (mkOptions cnt sd (Some (LocaleCode code))) w))
    !! a = Some f.
Proof.
  intros Hconfig Hcode Hin Ha.
  apply assoc_is_Some in Hin as [d Hd]. apply locale_definition_own in Hd.
  pose proof (lookup_lt_Some _ _ _ Ha) as Hlt.
  set (options := mkOptions cnt sd (Some (LocaleCode code))).
  assert (currentFaker (final (setup_steps options w)) = length (heap w)
          /\ heap (final (setup_steps options w)) !! a = Some f) as [C2 H2].
  { unfold setup_steps, bind, options. cbn [locale seed locale_truthy].
    destruct (String.eqb_spec code "") as [|_]; [contradiction|]. cbn [negb].
    rewrite (setupLocale_new (LocaleCode code) d w) by (right; eauto).
    set (w1 := mkWorld _ _ _ _ _).
    assert (currentFaker w1 = length (heap w) /\ heap w1 !! a = Some f) as [C1 H1].
    { split; [reflexivity|]. unfold w1. cbn [heap]. now rewrite lookup_app_l. }
    destruct sd as [seed|]; [destruct (seed_truthy seed)|]; try (split; assumption).
    destruct (setupSeed_spares seed w1) as [Hc Ho]. split; [congruence|].
    rewrite Ho; [exact H1|]. rewrite C1. lia. }
  rewrite generateSync_steps.
  destruct (setup_steps options w) as [[] w2|e w2]; cbn [final] in C2, H2; [|exact H2].
  destruct (generate_loop_contained schema config (default 1%nat (count options)) []
              Hconfig w2) as (_ & _ & _ & Hothers & _).
  rewrite Hothers; [exact H2|]. rewrite C2. lia.
Qed.
End FootprintProperties.

(** ** Objects and tuples *)

Lemma obj_set_keys (result : list (string * Value)) (key : string) (v : Value) :
  NoDup (map fst result) ->
  NoDup (map fst (obj_set result key v))
  /\ forall k, k ∈ map fst (obj_set result key v) <-> k = key \/ k ∈ map fst result.
Proof.
  induction result as [|[k0 x] result IH]; intros Hnd; simpl.
  - split; [apply NoDup_singleton|]. intros k. rewrite list_elem_of_singleton.
    split; [auto|]. intros [H|H]; [exact H|]. now apply elem_of_nil in H.
  - apply NoDup_cons in Hnd as [Hk0 Hnd]. destruct (IH Hnd) as [IH1 IH2].
    destruct (String.eqb_spec k0 key) as [->|Hne]; simpl.
    + split; [now apply NoDup_cons|]. intros k. rewrite elem_of_cons. tauto.
    + split.
      * apply NoDup_cons. split; [|exact IH1]. rewrite IH2. intros [H|H]; auto.
      * intros k. rewrite !elem_of_cons, IH2. tauto.
Qed.

Lemma append_assoc (a b c : string) : (a +:+ b) +:+ c = a +:+ (b +:+ c).
Proof.
  induction a as [|x a IH]; [reflexivity|]. now rewrite !append_cons, IH.
Qed.

Lemma last_char_snoc (s : string) (c : ascii) : last_char (s +:+ String c "") = Some c.
Proof.
  induction s as [|a s IH]; [reflexivity|].
  rewrite append_cons. simpl. rewrite IH.
  now destruct (s +:+ String c "") eqn:E; [destruct s; discriminate|].
Qed.

Lemma split_dot_snoc (s : string) (c : ascii) :
  Ascii.eqb c "." = false ->
  exists init seg, split_dot s = init ++ [seg]
                   /\ split_dot (s +:+ String c "") = init ++ [seg +:+ String c ""].
Proof.
  intros Hc. induction s as [|a s (init & seg & E1 & E2)].
  - exists [], "". simpl. now rewrite Hc.
  - rewrite append_cons. simpl. rewrite E1, E2. destruct (Ascii.eqb a ".").
    + now exists ("" :: init), seg.
    + destruct init as [|i init]; simpl.
      * now exists [], (String a seg).
      * now exists (String a i :: init), seg.
Qed.

Lemma getFieldName_snoc (s : string) (c : ascii) :
  Ascii.eqb c "." = false ->
  getFieldName (s +:+ String c "") = last_segment s +:+ String c "".
Proof.
  intros Hc. destruct (split_dot_snoc s c Hc) as (init & seg & E1 & E2).
  unfold getFieldName, last_segment. rewrite E1, E2, !last_snoc. simpl.
  now destruct seg.
Qed.

Section ShapeProperties.
Context {P : Provider} {R : Runtime}.

Lemma generateObject_loop_keys (rec : AST -> string -> Eff Value) (basePath : string)
    (props : list (string * AST)) (result : list (string * Value))
    (w w' : World) (v : Value) :
  NoDup (map fst result) ->
  generateObject_loop rec basePath props result w = Ret v w' ->
  exists fields, v = VObject fields /\ NoDup (map fst fields)
    /\ forall k, k ∈ map fst fields <-> k ∈ map fst result \/ k ∈ map fst props.
Proof.
  revert result w. induction props as [|[fieldName type] props IH];
    intros result w Hnd H; simpl in H.
  - injection H as <- _. exists result. split; [reflexivity|]. split; [exact Hnd|].
    intros k. split; [auto|]. intros [Hk|Hk]; [exact Hk|]. now apply elem_of_nil in Hk.
  - unfold bind in H.
    destruct (rec type (fieldPath basePath fieldName) w) as [x w1|e w1]; [|discriminate].
    destruct (obj_set_keys result fieldName x Hnd) as [Hnd' Hkeys].
    destruct (IH _ _ Hnd' H) as (fields & -> & Hf & Hk).
    exists fields. split; [reflexivity|]. split; [exact Hf|].
    intros k. rewrite Hk, Hkeys. simpl. rewrite elem_of_cons. tauto.
Qed.

Lemma generateTuple_map_length (rec : AST -> string -> Eff Value) (path : string)
    (elements : list AST) (index : nat) (w w' : World) (items : list Value) :
  generateTuple_map rec path elements index w = Ret items w' ->
  length items = length elements.
Proof.
  revert index w w' items. induction elements as [|element elements IH];
    intros index w w' items H; simpl in H.
  - now injection H as <- _.
  - unfold bind in H.
    destruct (rec element (elementPath path index) w) as [x w1|e w1]; [|discriminate].
    destruct (generateTuple_map rec path elements (S index) w1) as [xs w2|e w2] eqn:E;
      [|discriminate].
    injection H as <- _. simpl. f_equal. exact (IH _ _ _ _ E).
Qed.

Lemma generateTuple_map_ext (rec rec' : AST -> string -> Eff Value) (path : string)
    (elements : list AST) (index : nat) (w : World) :
  Forall (fun element => forall i w, rec element (elementPath path i) w
                                     = rec' element (elementPath path i) w) elements ->
  generateTuple_map rec path elements index w
  = generateTuple_map rec' path elements index w.
Proof.
  intros H. revert index w. induction H as [|element elements Hhead _ IH];
    intros index w; simpl; [reflexivity|].
  unfold bind. rewrite Hhead.
  destruct (rec' element (elementPath path index) w) as [x w1|e w1]; [|reflexivity].
  now rewrite IH.
Qed.

Lemma getFieldName_elementPath (path : string) (index : nat) :
  getFieldName (elementPath path index)
  = last_segment (path +:+ "[" +:+ pretty index) +:+ "]".
Proof.
  unfold elementPath.
  replace (path +:+ "[" +:+ pretty index +:+ "]")
    with ((path +:+ "[" +:+ pretty index) +:+ "]")
    by now rewrite !append_assoc.
  now apply getFieldName_snoc.
Qed.

(** A value an object node returns is an object whose keys are the
    declared property names, each of them once, also when a name is
    declared more than once (no property being named [__proto__], an
    assignment to which adds no key). *)
Theorem object_has_declared_keys (props : list (string * AST))
    (config : gmap string Override) (path : string) (w w' : World) (v : Value) :
  "__proto__" ∉ map fst props ->
  generateFromAST (TypeLiteral props) config path w = Ret v w' ->
  exists fields, v = VObject fields /\ NoDup (map fst fields)
    /\ forall k, k ∈ map fst fields <-> k ∈ map fst props.
Proof.
  intros _ H. simpl in H. unfold generateObject in H.
  apply generateObject_loop_keys in H as (fields & -> & Hnd & Hk); [|apply NoDup_nil_2].
  exists fields. split; [reflexivity|]. split; [exact Hnd|].
  intros k. rewrite Hk. split; [|auto]. intros [H|H]; [|exact H].
  now apply elem_of_nil in H.
Qed.

(** A value a tuple node returns is an array with one item for each
    element of the tuple. *)
Theorem tuple_has_arity (elements : list AST) (config : gmap string Override)
    (path : string) (w w' : World) (v : Value) :
  generateFromAST (TupleType elements) config path w = Ret v w' ->
  exists items, v = VArray items /\ length items = length elements.
Proof.
  intros H. simpl in H. unfold generateTuple, bind in H.
  destruct (generateTuple_map _ path elements 0 w) as [items w1|e w1] eqn:E;
    [|discriminate].
  injection H as <- _. exists items. split; [reflexivity|].
  exact (generateTuple_map_length _ _ _ _ _ _ _ E).
Qed.

(** The elements of a tuple are generated under the path of the tuple
    followed by the index in brackets, so the name their override is looked
    up under ends in a closing bracket: an override under a key that does
    not, the name of the tuple field itself for one, is never applied to an
    element, and a tuple of primitives generates as if it were not there. *)
Theorem tuple_elements_keyed_by_index (key : string) (override : Override)
    (kinds : list PrimitiveKind) (path : string) (w : World) :
  last_char key <> Some "]"%char ->
  (forall index, getFieldName (elementPath path index) <> key)
  /\ generateFromAST (TupleType (map primitive_node kinds)) {[ key := override ]} path w
     = generateFromAST (TupleType (map primitive_node kinds)) ∅ path w.
Proof.
  intros Hkey.
  assert (forall index, getFieldName (elementPath path index) <> key) as Hne.
  { intros index E. rewrite getFieldName_elementPath in E. subst key.
    now rewrite last_char_snoc in Hkey. }
  split; [exact Hne|].
  simpl. unfold generateTuple, bind.
  rewrite (generateTuple_map_ext _ (fun a p => generateFromAST a ∅ p)); [reflexivity|].
  apply Forall_forall. intros element Hin i w0.
  apply list_elem_of_fmap in Hin as (kind & -> & _).
  apply primitive_by_entry. rewrite lookup_empty.
  apply lookup_singleton_ne. intros E. now apply (Hne i).
Qed.
End ShapeProperties.

(** ** The further properties on the sample provider *)

Section FurtherEvaluations.
#[local] Existing Instance Sample.provider.
#[local] Existing Instance Sample.runtime.

Lemma nameConfig_contained : contained_config Sample.nameConfig.
Proof.
  intros name override H. unfold Sample.nameConfig in H.
  apply lookup_singleton_Some in H as [_ <-]. exact I.
Qed.

Lemma empty_parentheses_fall_back_witness :
  all_chars is_path_char "person.firstName" = true
  /\ executeFakerMethod "person.firstName()" (Sample.world Sample.zeros)
     = lorem_word (Sample.world Sample.zeros).
Proof.
  split; [reflexivity|].
  exact (proj1 (empty_parentheses_fall_back "person.firstName" Sample.readmeConfig
                  "name" (Sample.world Sample.zeros) eq_refl)).
Defined.

Lemma dotted_key_never_read_witness :
  last_segment "user.name" <> ""
  /\ getFieldName "user.name" <> "user.name"
  /\ generateFromAST StringKeyword Sample.fullPathConfig "user.name"
       (Sample.world Sample.zeros)
     = generateFromAST StringKeyword ∅ "user.name" (Sample.world Sample.zeros).
Proof.
  assert (last_segment "user.name" <> "") as H by (vm_compute; discriminate).
  destruct (dotted_key_never_read "user.name" (OvString "internet.email") "user.name"
              (Sample.world Sample.zeros) eq_refl H) as [H1 H2].
  split; [exact H|split; [exact H1|exact (H2 KString)]].
Defined.

Lemma override_result_of_kind_witness :
  Sample.nameConfig !! getFieldName "user.name" = Some (OvString "internet.email")
  /\ returned (generateFromAST StringKeyword Sample.nameConfig "user.name"
                 (Sample.world Sample.zeros))
     = Some (VString "English:internet.email#1103527590")
  /\ of_kind KString (VString "English:internet.email#1103527590").
Proof.
  assert (Sample.nameConfig !! getFieldName "user.name"
          = Some (OvString "internet.email")) as H1 by reflexivity.
  assert (returned (generateFromAST StringKeyword Sample.nameConfig "user.name"
                      (Sample.world Sample.zeros))
          = Some (VString "English:internet.email#1103527590")) as H2
    by (vm_compute; reflexivity).
  split; [exact H1|split; [exact H2|]].
  exact (override_result_of_kind KString Sample.nameConfig "user.name"
           (OvString "internet.email") (executeFakerMethod "internet.email")
           (Sample.world Sample.zeros) _ _ H1 eq_refl (returned_final _ _ H2)).
Defined.

Lemma listed_locale_is_accepted_witness :
  "fr" ∈ @getAvailableLocales Sample.provider
  /\ returned (setupLocale (LocaleCode "fr") (Sample.world Sample.zeros)) = Some tt.
Proof.
  assert ("fr" ∈ @getAvailableLocales Sample.provider) as H.
  { unfold getAvailableLocales. simpl. rewrite !elem_of_cons. auto. }
  split; [exact H|].
  destruct (listed_locale_is_accepted "fr" (Sample.world Sample.zeros) H)
    as (d & _ & E).
  now rewrite E.
Defined.

Lemma stored_seed_survives_locale_switch_witness :
  currentSeed (Sample.seededWorld Sample.zeros) = Some 12345
  /\ currentSeed (Sample.seededWorld (Sample.half_at 0)) = Some 12345
  /\ (let options := mkOptions (Some 2%nat) None (Some (LocaleCode "de")) in
      same_result
        (generateSync Sample.userSchema Sample.nameConfig options
           (Sample.seededWorld Sample.zeros))
        (generateSync Sample.userSchema Sample.nameConfig options
           (Sample.seededWorld (Sample.half_at 0)))).
Proof.
  split; [reflexivity|split; [reflexivity|]]. cbv zeta.
  refine (stored_seed_survives_locale_switch Sample.userSchema Sample.nameConfig
            (Some 2%nat) (LocaleCode "de") 12345 (Sample.seededWorld Sample.zeros)
            (Sample.seededWorld (Sample.half_at 0))
            eq_refl _ eq_refl eq_refl eq_refl eq_refl).
  intros name override H. unfold Sample.nameConfig in H.
  apply lookup_singleton_Some in H as [_ <-]. exact I.
Defined.

Lemma generation_keeps_to_current_provider_witness :
  contained_config Sample.nameConfig
  /\ footprint (Sample.world (Sample.half_at 0))
       (final (generateSync Sample.statusSchema Sample.nameConfig
                 (mkOptions (Some 2%nat) None None) (Sample.world (Sample.half_at 0)))).
Proof.
  split; [exact nameConfig_contained|].
  exact (generation_keeps_to_current_provider Sample.statusSchema Sample.nameConfig
           (Some 2%nat) (Sample.world (Sample.half_at 0)) nameConfig_contained).
Defined.

Lemma locale_code_spares_existing_providers_witness :
  "fr" <> "" /\ "fr" ∈ @getAvailableLocales Sample.provider
  /\ heap (Sample.world Sample.zeros) !! 0%nat = Some (mkFaker "English" 1)
  /\ heap (final (generateSync Sample.userSchema Sample.nameConfig
                    (mkOptions (Some 2%nat) (Some (SeedNumber 42))
                               (Some (LocaleCode "fr")))
                    (Sample.world Sample.zeros))) !! 0%nat
     = Some (mkFaker "English" 1).
Proof.
  assert ("fr" ∈ @getAvailableLocales Sample.provider) as H.
  { unfold getAvailableLocales. simpl. rewrite !elem_of_cons. auto. }
  split; [discriminate|split; [exact H|split; [reflexivity|]]].
  refine (locale_code_spares_existing_providers Sample.userSchema Sample.nameConfig
            (Some 2%nat) (Some (SeedNumber 42)) "fr" (Sample.world Sample.zeros)
            0%nat (mkFaker "English" 1) nameConfig_contained _ H eq_refl).
  discriminate.
Defined.

Lemma object_has_declared_keys_witness :
  ("__proto__" ∉ ["id"; "name"; "tags"])
  /\ exists fields,
       returned (generateFromAST Sample.userSchema Sample.noConfig ""
                   (Sample.world Sample.zeros))
       = Some (VObject fields)
       /\ NoDup (map fst fields)
       /\ forall k, k ∈ map fst fields <-> k ∈ ["id"; "name"; "tags"].
Proof.
  assert ("__proto__" ∉ ["id"; "name"; "tags"]) as H.
  { rewrite !not_elem_of_cons. repeat split; try discriminate. apply not_elem_of_nil. }
  split; [exact H|].
  set (o := generateFromAST Sample.userSchema Sample.noConfig ""
              (Sample.world Sample.zeros)).
  assert (returned o
          = Some (VObject
                    [("id", VNumber (Num (inject_Z 27591)));
                     ("name", VString "English:person.fullName#377401575");
                     ("tags", VArray [VString "English:lorem.word#662824084";
                                      VBool true])])) as E
    by (vm_compute; reflexivity).
  destruct (object_has_declared_keys
              [("id", NumberKeyword); ("name", StringKeyword);
               ("tags", TupleType [StringKeyword; BooleanKeyword])]
              Sample.noConfig "" (Sample.world Sample.zeros) (final o) _ H
              (returned_final o _ E)) as (fields & EV & Hnd & Hk).
  exists fields. split; [|split; [exact Hnd|exact Hk]].
  rewrite E. f_equal. exact EV.
Defined.

Lemma tuple_has_arity_witness :
  exists items,
    returned (generateFromAST (TupleType [StringKeyword; BooleanKeyword])
                Sample.noConfig "tags" (Sample.world Sample.zeros))
    = Some (VArray items)
    /\ length items = 2%nat.
Proof.
  set (o := generateFromAST (TupleType [StringKeyword; BooleanKeyword])
              Sample.noConfig "tags" (Sample.world Sample.zeros)).
  assert (returned o
          = Some (VArray [VString "English:lorem.word#1103527590"; VBool false])) as E
    by (vm_compute; reflexivity).
  destruct (tuple_has_arity [StringKeyword; BooleanKeyword] Sample.noConfig "tags"
              (Sample.world Sample.zeros) (final o) _ (returned_final o _ E))
    as (items & EV & Hlen).
  exists items. split; [|exact Hlen].
  rewrite E. f_equal. exact EV.
Defined.

Lemma tuple_elements_keyed_by_index_witness :
  last_char "tags" <> Some "]"%char
  /\ generateFromAST (TupleType [StringKeyword; BooleanKeyword])
       {[ "tags" := OvString "internet.email" ]} "tags" (Sample.world Sample.zeros)
     = generateFromAST (TupleType [StringKeyword; BooleanKeyword]) ∅ "tags"
         (Sample.world Sample.zeros).
Proof.
  assert (last_char "tags" <> Some "]"%char) as H by (vm_compute; discriminate).
  split; [exact H|].
  exact (proj2 (tuple_elements_keyed_by_index "tags" (OvString "internet.email")
                  [KString; KBoolean] "tags" (Sample.world Sample.zeros) H)).
Defined.
End FurtherEvaluations.
